(** * acpp::function — a type-erased callable container with small-buffer storage

    A shallow embedding of [src/BabelCode/function.h] and the verification of
    its specification.

    Conventions of the embedding.
    - The container is instantiated at one call signature with one argument;
      arguments, results and the codes of exceptions thrown by callables are
      integers.
    - An object of a concrete callable type is represented by the list of
      8-byte words of its object representation.
    - A [_Callable_storage] is the pair of 64-bit words of the source.  A heap
      pointer occupies the first word; pointers are positive numbers, the null
      pointer is the word 0.
    - A pointer to the per-type static [_Operations] table is represented by
      the type it was instantiated for; a pointer to an invoker is represented
      by the invoker function itself.  A null pointer is [None].
    - Functions taking objects by reference return the new states of these
      objects; the heap and the trace of lifecycle events are threaded
      through as a [world].
    - An exception leaves a function through [Threw]; undefined behaviour
      (a dangling or null dereference, a double delete, an exception escaping
      a [noexcept] function) is [Undefined]. *)

From Stdlib Require Import ZArith List Bool String Lia.
From stdpp Require Import base option gmap.

Import ListNotations.
Local Open Scope Z_scope.

(** ** Concrete callable types *)

(** The facts about a concrete callable type [T] that the container depends
    on: the three traits read by the [_In_place_callable] concept, and the
    behaviour of its special member functions and call operator.  Copy and
    move construction yield an object with the value of their source (the
    CopyConstructible and MoveConstructible requirements); a constructor may
    instead throw, and a move leaves its source in the state [moved_from]. *)
Record callable_type := {
  sizeof : Z;
  alignment_of : Z;
  is_nothrow_move_constructible : bool;
  copy_throws : list Z -> option Z;
  move_throws : list Z -> option Z;
  moved_from : list Z -> list Z;
  (* operator(): the result or the code of the exception thrown, and the
     captured state afterwards (a mutable callable may change it) *)
  call_operator : list Z -> Z -> (Z + Z) * list Z
}.

Inductive value_category := lvalue | rvalue.

(** [T(std::forward<_Fn>(callable))]: the new object and the state of the
    source afterwards, or the code thrown. *)
Definition construct (T : callable_type) (cat : value_category) (v : list Z)
  : Z + (list Z * list Z) :=
  match cat with
  | lvalue =>
      match copy_throws T v with
      | Some code => inl code
      | None => inr (v, v)
      end
  | rvalue =>
      if is_nothrow_move_constructible T then inr (v, moved_from T v)
      else match move_throws T v with
           | Some code => inl code
           | None => inr (v, moved_from T v)
           end
  end.

(** ** Storage *)

Record _Callable_storage := { mem1 : Z; mem2 : Z }.

Record _Any_callable := {
  storage : _Callable_storage;
  operations : option callable_type
}.

(** [sizeof(_Any_callable::storage)] and
    [std::alignment_of<_Callable_storage>::value]: two [uint64_t]. *)
Definition sizeof_storage : Z := 16.
Definition alignment_of_storage : Z := 8.

Definition _In_place_callable (T : callable_type) : bool :=
  (sizeof T <=? sizeof_storage) &&
  (alignment_of_storage mod alignment_of T =? 0) &&
  is_nothrow_move_constructible T.

(** Number of 8-byte words spanned by an object of type [T]. *)
Definition words_of (T : callable_type) : nat := Z.to_nat ((sizeof T + 7) / 8).

(** Reading the first [n] words of the storage, and overlaying an object
    representation on it (words the object does not span keep their
    content). *)
Definition read_words (n : nat) (s : _Callable_storage) : list Z :=
  firstn n [mem1 s; mem2 s].

Definition write_words (v : list Z) (s : _Callable_storage) : _Callable_storage :=
  match v with
  | [] => s
  | [a] => {| mem1 := a; mem2 := mem2 s |}
  | a :: b :: _ => {| mem1 := a; mem2 := b |}
  end.

(** ** The world: heap and lifecycle trace *)

Inductive event :=
| EvNew (p : positive)            (* operator new returned p *)
| EvDelete (p : positive)         (* operator delete released p *)
| EvCopyCtor (v : list Z)         (* an occupant was copy-constructed from v *)
| EvMoveCtor (v : list Z)         (* an occupant was move-constructed from v *)
| EvDtor (v : list Z).            (* the destructor of an occupant ran *)

Record world := {
  heap : gmap positive (list Z);
  next : positive;
  trace : list event
}.

Definition log (es : list event) (w : world) : world :=
  {| heap := heap w; next := next w; trace := trace w ++ es |}.

Definition is_new (e : event) : bool :=
  match e with EvNew _ => true | _ => false end.
Definition is_delete (e : event) : bool :=
  match e with EvDelete _ => true | _ => false end.
Definition is_copy (e : event) : bool :=
  match e with EvCopyCtor _ => true | _ => false end.

Definition count (f : event -> bool) (es : list event) : nat :=
  List.length (List.filter f es).

(** Every live block lies below the allocation frontier. *)
Definition wf_world (w : world) : Prop :=
  forall p v, heap w !! p = Some v -> (p < next w)%positive.

Inductive exn :=
| runtime_error (what : string)
| thrown (code : Z).

Definition bad_function_call : exn := runtime_error "bad function call".

(** Outcome of a call: [S] collects the states of the objects the callee
    holds by reference, [A] is the returned value. *)
Inductive result (S A : Type) :=
| Returned (a : A) (s : S) (w : world)
| Threw (e : exn) (s : S) (w : world)
| Undefined.
Arguments Returned {S A} a s w.
Arguments Threw {S A} e s w.
Arguments Undefined {S A}.

Definition ctor_event (cat : value_category) (v : list Z) : event :=
  match cat with lvalue => EvCopyCtor v | rvalue => EvMoveCtor v end.

Definition set_storage (s : _Callable_storage) (a : _Any_callable) : _Any_callable :=
  {| storage := s; operations := operations a |}.
Definition set_operations (o : option callable_type) (a : _Any_callable) : _Any_callable :=
  {| storage := storage a; operations := o |}.

(** ** _Any_callable_manager<LargeCallable>: callables kept on the heap *)
Module Large.

(** [get_ptr]: the first word of the storage reinterpreted as a pointer. *)
Definition get_ptr (a : _Any_callable) : Z := mem1 (storage a).

Definition set_ptr (p : Z) (a : _Any_callable) : _Any_callable :=
  set_storage {| mem1 := p; mem2 := mem2 (storage a) |} a.

(** [get_ref]: dereference of [get_ptr]; [None] when the pointer does not
    point to a live block. *)
Definition get_ref (a : _Any_callable) (w : world) : option (positive * list Z) :=
  match get_ptr a with
  | Z.pos p => match heap w !! p with Some v => Some (p, v) | None => None end
  | _ => None
  end.

Definition invoke (T : callable_type) (a : _Any_callable) (args : Z) (w : world)
  : result _Any_callable Z :=
  match get_ref a w with
  | None => Undefined
  | Some (p, v) =>
      let (r, v') := call_operator T v args in
      let w' := {| heap := <[p := v']> (heap w); next := next w; trace := trace w |} in
      match r with
      | inl x => Returned x a w'
      | inr code => Threw (thrown code) a w'
      end
  end.

(** [get_ptr(any_callable) = new LargeCallable(std::forward<_Fn>(callable))].
    When the constructor throws, the new-expression releases the block. *)
Definition store (T : callable_type) (cat : value_category) (v : list Z)
    (a : _Any_callable) (w : world) : result _Any_callable unit :=
  let p := next w in
  match construct T cat v with
  | inl code => Threw (thrown code) a (log [EvNew p; EvDelete p] w)
  | inr (obj, _) =>
      Returned tt (set_ptr (Z.pos p) a)
        {| heap := <[p := obj]> (heap w);
           next := Pos.succ p;
           trace := trace w ++ [EvNew p; ctor_event cat v] |}
  end.

Definition move_and_destroy (dest src : _Any_callable)
  : _Any_callable * _Any_callable :=
  let dest := set_storage (storage src) dest in
  let dest := set_operations (operations src) dest in
  (dest, set_operations None src).

(** [delete get_ptr(any_callable)]. *)
Definition destroy (a : _Any_callable) (w : world) : result _Any_callable unit :=
  match get_ptr a with
  | 0 => Returned tt a w
  | Z.pos p =>
      match heap w !! p with
      | Some v =>
          Returned tt a
            {| heap := delete p (heap w); next := next w;
               trace := trace w ++ [EvDtor v; EvDelete p] |}
      | None => Undefined
      end
  | Z.neg _ => Undefined
  end.

End Large.

(** ** _Any_callable_manager<Callable> requires _In_place_callable<Callable> *)
Module InPlace.

Definition get_ref (T : callable_type) (a : _Any_callable) : list Z :=
  read_words (words_of T) (storage a).

Definition invoke (T : callable_type) (a : _Any_callable) (args : Z) (w : world)
  : result _Any_callable Z :=
  let (r, v') := call_operator T (get_ref T a) args in
  let a' := set_storage (write_words v' (storage a)) a in
  match r with
  | inl x => Returned x a' w
  | inr code => Threw (thrown code) a' w
  end.

(** [new (&get_ref(any_callable)) Callable(std::forward<_Fn>(callable))]. *)
Definition store (T : callable_type) (cat : value_category) (v : list Z)
    (a : _Any_callable) (w : world) : result _Any_callable unit :=
  match construct T cat v with
  | inl code => Threw (thrown code) a w
  | inr (obj, _) =>
      Returned tt (set_storage (write_words obj (storage a)) a)
        (log [ctor_event cat v] w)
  end.

Definition destroy (T : callable_type) (a : _Any_callable) (w : world)
  : result _Any_callable unit :=
  Returned tt a (log [EvDtor (get_ref T a)] w).

Definition move_and_destroy (T : callable_type) (dest src : _Any_callable)
    (w : world) : result (_Any_callable * _Any_callable) unit :=
  let v := get_ref T src in
  match store T rvalue v dest w with
  | Returned _ dest w =>
      (* the move constructor leaves its source in the moved-from state *)
      let src := set_storage (write_words (moved_from T v) (storage src)) src in
      match destroy T src w with
      | Returned _ src w =>
          Returned tt (set_operations (operations src) dest, set_operations None src) w
      | Threw e src w => Threw e (dest, src) w
      | Undefined => Undefined
      end
  | Threw e dest w => Threw e (dest, src) w
  | Undefined => Undefined
  end.

End InPlace.

(** ** Selection of the manager specialization *)

(** [_Any_callable_manager<T>] is the in-place specialization exactly when
    [T] satisfies [_In_place_callable]. *)
Definition manager_store (T : callable_type) (cat : value_category) (v : list Z)
    (a : _Any_callable) (w : world) : result _Any_callable unit :=
  if _In_place_callable T then InPlace.store T cat v a w else Large.store T cat v a w.

Definition manager_destroy (T : callable_type) (a : _Any_callable) (w : world)
  : result _Any_callable unit :=
  if _In_place_callable T then InPlace.destroy T a w else Large.destroy a w.

Definition manager_move_and_destroy (T : callable_type) (dest src : _Any_callable)
    (w : world) : result (_Any_callable * _Any_callable) unit :=
  if _In_place_callable T then InPlace.move_and_destroy T dest src w
  else Returned tt (Large.move_and_destroy dest src) w.

Definition manager_invoke (T : callable_type) (a : _Any_callable) (args : Z) (w : world)
  : result _Any_callable Z :=
  if _In_place_callable T then InPlace.invoke T a args w else Large.invoke T a args w.

(** ** _Operations: the hand-written virtual table *)

Record _Operations := {
  destroy : _Any_callable -> world -> result _Any_callable unit;
  copy : _Any_callable -> _Any_callable -> world -> result _Any_callable unit;
  move : _Any_callable -> _Any_callable -> world
         -> result (_Any_callable * _Any_callable) unit
}.

Definition templated_destroy (T : callable_type) (a : _Any_callable) (w : world)
  : result _Any_callable unit :=
  manager_destroy T a w.

(** [_Manager::store(_Manager::get_ref(src), dst); dst.operations = src.operations;]
    The state returned is that of [dst]; [src] is taken by const reference. *)
Definition templated_copy (T : callable_type) (dst src : _Any_callable) (w : world)
  : result _Any_callable unit :=
  let stored :=
    if _In_place_callable T then InPlace.store T lvalue (InPlace.get_ref T src) dst w
    else match Large.get_ref src w with
         | Some (_, v) => Large.store T lvalue v dst w
         | None => Undefined
         end in
  match stored with
  | Returned _ dst w => Returned tt (set_operations (operations src) dst) w
  | other => other
  end.

Definition templated_move (T : callable_type) (dst src : _Any_callable) (w : world)
  : result (_Any_callable * _Any_callable) unit :=
  manager_move_and_destroy T dst src w.

(** The table behind a non-null [operations] pointer. *)
Definition create_operations (T : callable_type) : _Operations :=
  {| destroy := templated_destroy T;
     copy := templated_copy T;
     move := templated_move T |}.

(** ** function<R(Args...)> *)

Definition _Callable_invoker : Type :=
  _Any_callable -> Z -> world -> result _Any_callable Z.

Record function := {
  any_callable_ : _Any_callable;
  invoker_ : option _Callable_invoker
}.

Definition set_any (a : _Any_callable) (f : function) : function :=
  {| any_callable_ := a; invoker_ := invoker_ f |}.
Definition set_invoker (i : option _Callable_invoker) (f : function) : function :=
  {| any_callable_ := any_callable_ f; invoker_ := i |}.

(** [function() noexcept = default]: both pointers null; the storage keeps
    the indeterminate bytes [junk] found at the object's address. *)
Definition function_default (junk : _Callable_storage) : function :=
  {| any_callable_ := {| storage := junk; operations := None |};
     invoker_ := None |}.

(** [operator bool() const noexcept]. *)
Definition operator_bool (f : function) : bool :=
  match operations (any_callable_ f) with Some _ => true | None => false end.

(** [set]: store the callable, then record its table and its invoker. *)
Definition set (T : callable_type) (cat : value_category) (v : list Z)
    (f : function) (w : world) : result function unit :=
  match manager_store T cat v (any_callable_ f) w with
  | Returned _ a w =>
      let f := set_any (set_operations (Some T) a) f in
      Returned tt (set_invoker (Some (manager_invoke T)) f) w
  | Threw e a w => Threw e (set_any a f) w
  | Undefined => Undefined
  end.

(** [unset]: run the table's destroy, null the [operations] pointer. *)
Definition unset (f : function) (w : world) : result function unit :=
  match operations (any_callable_ f) with
  | None => Undefined
  | Some T =>
      match destroy (create_operations T) (any_callable_ f) w with
      | Returned _ a w => Returned tt (set_any (set_operations None a) f) w
      | Threw e a w => Threw e (set_any a f) w
      | Undefined => Undefined
      end
  end.

(** [function(const function& oth)]. *)
Definition function_copy (junk : _Callable_storage) (oth : function) (w : world)
  : result function unit :=
  let this := function_default junk in
  match operations (any_callable_ oth) with
  | Some T =>
      match copy (create_operations T) (any_callable_ this) (any_callable_ oth) w with
      | Returned _ a w => Returned tt (set_invoker (invoker_ oth) (set_any a this)) w
      | Threw e a w => Threw e (set_any a this) w
      | Undefined => Undefined
      end
  | None => Returned tt this w
  end.

(** [function(function&& oth) noexcept]; the states returned are those of
    the new object and of [oth]. *)
Definition function_move (junk : _Callable_storage) (oth : function) (w : world)
  : result (function * function) unit :=
  let this := function_default junk in
  match operations (any_callable_ oth) with
  | Some T =>
      match move (create_operations T) (any_callable_ this) (any_callable_ oth) w with
      | Returned _ (a, b) w =>
          Returned tt (set_invoker (invoker_ oth) (set_any a this),
                       set_invoker None (set_any b oth)) w
      | _ => Undefined
      end
  | None => Returned tt (this, oth) w
  end.

(** [template <typename Callable> function(Callable&& callable)]. *)
Definition function_from_callable (junk : _Callable_storage) (T : callable_type)
    (cat : value_category) (v : list Z) (w : world) : result function unit :=
  set T cat v (function_default junk) w.

(** [~function()]. *)
Definition function_destroy (f : function) (w : world) : result function unit :=
  if operator_bool f then unset f w else Returned tt f w.

(** [R operator()(Args... args)]. *)
Definition operator_call (f : function) (args : Z) (w : world) : result function Z :=
  match operations (any_callable_ f) with
  | None => Threw bad_function_call f w
  | Some _ =>
      match invoker_ f with
      | None => Undefined
      | Some invoke =>
          match invoke (any_callable_ f) args w with
          | Returned r a w => Returned r (set_any a f) w
          | Threw e a w => Threw e (set_any a f) w
          | Undefined => Undefined
          end
      end
  end.

(** [void swap(function& oth) noexcept], for two distinct objects; [junk] is
    the indeterminate storage of [temp_callable]. *)
Definition swap (junk : _Callable_storage) (this oth : function) (w : world)
  : result (function * function) unit :=
  let temp := {| storage := junk; operations := None |} in
  let step1 :=
    match operations (any_callable_ oth) with
    | Some T =>
        match move (create_operations T) temp (any_callable_ oth) w with
        | Returned _ (t, o) w => Some (t, set_any o oth, w)
        | _ => None
        end
    | None => Some (temp, oth, w)
    end in
  match step1 with
  | None => Undefined
  | Some (temp, oth, w) =>
      let step2 :=
        match operations (any_callable_ this) with
        | Some T =>
            match move (create_operations T) (any_callable_ oth) (any_callable_ this) w with
            | Returned _ (o, t) w => Some (set_any t this, set_any o oth, w)
            | _ => None
            end
        | None => Some (this, oth, w)
        end in
      match step2 with
      | None => Undefined
      | Some (this, oth, w) =>
          let step3 :=
            match operations temp with
            | Some T =>
                match move (create_operations T) (any_callable_ this) temp w with
                | Returned _ (t, _) w => Some (set_any t this, w)
                | _ => None
                end
            | None => Some (this, w)
            end in
          match step3 with
          | None => Undefined
          | Some (this, w) =>
              Returned tt (set_invoker (invoker_ oth) this,
                           set_invoker (invoker_ this) oth) w
          end
      end
  end.

(** [x.swap(x)]: [this] and [oth] are one object, so the second guard reads
    the operations pointer that the first move has just nulled.  A move of
    the object into itself, behind that guard, is left undefined. *)
Definition swap_self (junk : _Callable_storage) (x : function) (w : world)
  : result function unit :=
  let temp := {| storage := junk; operations := None |} in
  let step1 :=
    match operations (any_callable_ x) with
    | Some T =>
        match move (create_operations T) temp (any_callable_ x) w with
        | Returned _ (t, o) w => Some (t, set_any o x, w)
        | _ => None
        end
    | None => Some (temp, x, w)
    end in
  match step1 with
  | None => Undefined
  | Some (temp, x, w) =>
      match operations (any_callable_ x) with
      | Some _ => Undefined
      | None =>
          match operations temp with
          | Some T =>
              match move (create_operations T) (any_callable_ x) temp w with
              | Returned _ (t, _) w => Returned tt (set_any t x) w
              | _ => Undefined
              end
          | None => Returned tt x w
          end
      end
  end.

(** [function& operator=(function oth) { swap(oth); return *this; }]: the
    body, on the assigned-to object and the by-value parameter. *)
Definition assign_body (junk : _Callable_storage) (this oth : function) (w : world)
  : result (function * function) unit :=
  swap junk this oth w.

(** [x = y] for an lvalue [y]: the parameter is copy-constructed from [y],
    the body runs, the parameter is destroyed.  [jp] and [jt] are the
    indeterminate storages of the parameter and of swap's temporary.  The
    state returned is that of the assigned-to object. *)
Definition assign_copy (jp jt : _Callable_storage) (this y : function) (w : world)
  : result function unit :=
  match function_copy jp y w with
  | Returned _ oth w =>
      match assign_body jt this oth w with
      | Returned _ (this, oth) w =>
          match function_destroy oth w with
          | Returned _ _ w => Returned tt this w
          | Threw e _ w => Threw e this w
          | Undefined => Undefined
          end
      | Threw e (this, _) w => Threw e this w
      | Undefined => Undefined
      end
  | Threw e _ w => Threw e this w
  | Undefined => Undefined
  end.

(** [x = std::move(y)]: the parameter is move-constructed from [y]; the
    states returned are those of [x] and [y]. *)
Definition assign_move (jp jt : _Callable_storage) (this y : function) (w : world)
  : result (function * function) unit :=
  match function_move jp y w with
  | Returned _ (oth, y) w =>
      match assign_body jt this oth w with
      | Returned _ (this, oth) w =>
          match function_destroy oth w with
          | Returned _ _ w => Returned tt (this, y) w
          | Threw e _ w => Threw e (this, y) w
          | Undefined => Undefined
          end
      | Threw e (this, _) w => Threw e (this, y) w
      | Undefined => Undefined
      end
  | Threw e (_, y) w => Threw e (this, y) w
  | Undefined => Undefined
  end.

(** [template <typename Callable> function& operator=(Callable&& callable)]:
    [if ( *this) { unset(); } set(std::forward<Callable>(callable));]
    The body ends there: the function returns [function&] and has no return
    statement, so when [set] completes control flows off its end, which is
    undefined behaviour.  Only an exception thrown by [set] leaves it in a
    defined way. *)
Definition assign_callable (T : callable_type) (cat : value_category) (v : list Z)
    (this : function) (w : world) : result function unit :=
  let unset_done :=
    if operator_bool this then unset this w else Returned tt this w in
  match unset_done with
  | Returned _ this w =>
      match set T cat v this w with
      | Returned _ _ _ => Undefined
      | Threw e this w => Threw e this w
      | Undefined => Undefined
      end
  | other => other
  end.

(** ** Observations used by the specification *)

(** The occupant of a container, read the way its table reads it: from the
    storage words in place, or through the heap pointer. *)
Definition occupant (w : world) (a : _Any_callable) : option (list Z) :=
  match operations a with
  | None => None
  | Some T =>
      if _In_place_callable T then Some (InPlace.get_ref T a)
      else match Large.get_ref a w with Some (_, v) => Some v | None => None end
  end.

(** [f] is a non-empty container built for type [T] whose occupant has the
    value [v]. *)
Definition holds (w : world) (f : function) (T : callable_type) (v : list Z) : Prop :=
  operations (any_callable_ f) = Some T /\
  invoker_ f = Some (manager_invoke T) /\
  occupant w (any_callable_ f) = Some v.

(** What the caller of an operation sees: a value, an exception, or nothing
    defined. *)
Definition outcome {S A : Type} (r : result S A) : option (A + exn) :=
  match r with
  | Returned a _ _ => Some (inl a)
  | Threw e _ _ => Some (inr e)
  | Undefined => None
  end.

(** The states in which an operation that returned or threw leaves the
    objects it holds by reference, and the world. *)
Definition after {S A : Type} (r : result S A) : option (S * world) :=
  match r with
  | Returned _ s w => Some (s, w)
  | Threw _ s w => Some (s, w)
  | Undefined => None
  end.

(** What applying an object of type [T] with value [v] to [args] gives. *)
Definition applied (T : callable_type) (v : list Z) (args : Z) : Z + exn :=
  match fst (call_operator T v args) with
  | inl x => inl x
  | inr code => inr (thrown code)
  end.

(** The invariant of the data model on the two references. *)
Definition references_agree (f : function) : Prop :=
  operations (any_callable_ f) = None <-> invoker_ f = None.

(** ** Callable types of the demonstration program *)

Definition plain (size align : Z) (call : list Z -> Z -> (Z + Z) * list Z)
  : callable_type :=
  {| sizeof := size; alignment_of := align;
     is_nothrow_move_constructible := true;
     copy_throws := fun _ => None; move_throws := fun _ => None;
     moved_from := fun v => v;
     call_operator := call |}.

(** [[](int b){ return 2 + b; }]: a captureless closure. *)
Definition add_two : callable_type :=
  plain 1 1 (fun v b => (inl (2 + b), v)).

(** [[=](int b){ return a + b; }] with [int a] captured. *)
Definition small_lambda : callable_type :=
  plain 4 4 (fun v b => (inl (hd 0 v + b), v)).

(** A mutable closure counting its calls, small enough for the buffer. *)
Definition small_counter : callable_type :=
  plain 8 8 (fun v b => (inl (hd 0 v), [hd 0 v + 1])).

(** A closure owning a [std::string] (32 bytes): the first word is the part
    of the text the call reads. *)
Definition large_lambda : callable_type :=
  plain 32 8 (fun v b => (inl (hd 0 v + b), v)).

(** A 32-byte mutable closure counting its calls. *)
Definition large_counter : callable_type :=
  plain 32 8 (fun v b => (inl (hd 0 v), (hd 0 v + 1) :: tl v)).

(** An 8-byte callable whose move constructor is not [noexcept]. *)
Definition small_throwing_move : callable_type :=
  {| sizeof := 8; alignment_of := 8;
     is_nothrow_move_constructible := false;
     copy_throws := fun _ => None; move_throws := fun _ => None;
     moved_from := fun v => v;
     call_operator := fun v b => (inl (hd 0 v + b), v) |}.

(** A callable whose copy constructor throws the code 7. *)
Definition throwing_copy : callable_type :=
  {| sizeof := 8; alignment_of := 8;
     is_nothrow_move_constructible := true;
     copy_throws := fun _ => Some 7; move_throws := fun _ => None;
     moved_from := fun v => v;
     call_operator := fun v b => (inl b, v) |}.

(** A callable whose call operator throws the code 3. *)
Definition failing_call : callable_type :=
  plain 8 8 (fun v b => (inr 3, v)).

Definition empty_world : world := {| heap := ∅; next := 1%positive; trace := [] |}.
Definition junk0 : _Callable_storage := {| mem1 := 170; mem2 := 187 |}.
Definition junk1 : _Callable_storage := {| mem1 := 204; mem2 := 221 |}.

(** Containers of the demonstration program, as their constructors leave
    them. *)
Definition built (r : result function unit) : function * world :=
  match r with
  | Returned _ f w => (f, w)
  | _ => (function_default junk0, empty_world)
  end.

(** [acpp::function<int(int)> f([](int b){ return 2 + b; });] *)
Definition demo_small : function * world :=
  built (function_from_callable junk0 add_two rvalue [0] empty_world).

(** A container built from a copy of a 32-byte closure. *)
Definition demo_large : function * world :=
  built (function_from_callable junk0 large_lambda lvalue [10; 11; 12; 13] empty_world).

(** Containers built from the two counting closures. *)
Definition demo_small_counter : function * world :=
  built (function_from_callable junk0 small_counter rvalue [5] empty_world).
Definition demo_large_counter : function * world :=
  built (function_from_callable junk0 large_counter rvalue [5; 0; 0; 0] empty_world).

(** The constructor selected for a callable passed with category [cat]
    completes. *)
Definition constructible (T : callable_type) (cat : value_category) (v : list Z) : Prop :=
  construct T cat v = inr (v, match cat with lvalue => v | rvalue => moved_from T v end).

(** The three conditions of mode selection, as the specification words
    them. *)
Definition fits_in_storage (T : callable_type) : Prop := sizeof T <= sizeof_storage.
Definition alignment_compatible (T : callable_type) : Prop :=
  exists k, alignment_of_storage = k * alignment_of T.
Definition relocatable (T : callable_type) : Prop :=
  is_nothrow_move_constructible T = true.

(** Events by which a move may extend the trace: no allocation, no release,
    no copy construction. *)
Definition transfer_only (es : list event) : Prop :=
  count is_new es = 0%nat /\ count is_delete es = 0%nat /\ count is_copy es = 0%nat.

(** ** Ownership of heap blocks *)

(** The heap block a container owns: the pointer in the first storage word
    of a non-empty container of a boxed type. *)
Definition block_of (f : function) : option positive :=
  match operations (any_callable_ f) with
  | Some T =>
      if _In_place_callable T then None
      else match Large.get_ptr (any_callable_ f) with
           | Z.pos p => Some p
           | _ => None
           end
  | None => None
  end.

Definition blocks (fs : list function) : list positive := omap block_of fs.

(** A container is valid when, if it is not empty, its invoker is the one
    of its table and its table can read an occupant. *)
Definition valid (w : world) (f : function) : Prop :=
  forall T, operations (any_callable_ f) = Some T -> exists v, holds w f T v.

(** The containers [fs] are all the containers alive in the world [w]: each
    is valid, no two own the same block, and the live blocks of the heap are
    exactly the blocks they own (nothing leaked, nothing dangling). *)
Definition consistent (w : world) (fs : list function) : Prop :=
  wf_world w /\
  Forall (valid w) fs /\
  NoDup (blocks fs) /\
  forall p, p ∈ blocks fs <-> is_Some (heap w !! p).

(** [x = std::move(x)]: the parameter is move-constructed from [x] itself,
    so the body runs on the moved-from [x]. *)
Definition assign_move_self (jp jt : _Callable_storage) (x : function) (w : world)
  : result function unit :=
  match function_move jp x w with
  | Returned _ (oth, x) w =>
      match assign_body jt x oth w with
      | Returned _ (x, oth) w =>
          match function_destroy oth w with
          | Returned _ _ w => Returned tt x w
          | Threw e _ w => Threw e x w
          | Undefined => Undefined
          end
      | Threw e (x, _) w => Threw e x w
      | Undefined => Undefined
      end
  | Threw e (_, x) w => Threw e x w
  | Undefined => Undefined
  end.

(** The blocks owned by the containers [fs] have in [w'] the content they
    have in [w]. *)
Definition untouched (w w' : world) (fs : list function) : Prop :=
  forall p, p ∈ blocks fs -> heap w' !! p = heap w !! p.

(** A second container of the demonstration program, built beside
    [demo_large]. *)
Definition demo_second : function * world :=
  built (function_from_callable junk1 large_counter rvalue [5; 0; 0; 0] (snd demo_large)).

(** The end of a scope: the destructors of its containers run one after
    the other. *)
Fixpoint destroy_all (fs : list function) (w : world) : option world :=
  match fs with
  | [] => Some w
  | f :: fs =>
      match function_destroy f w with
      | Returned _ _ w => destroy_all fs w
      | _ => None
      end
  end.

(** ** Lifetimes of occupants *)

Definition is_ctor (e : event) : bool :=
  match e with EvCopyCtor _ | EvMoveCtor _ => true | _ => false end.
Definition is_dtor (e : event) : bool :=
  match e with EvDtor _ => true | _ => false end.

(** Occupants constructed and not yet destroyed, according to a trace. *)
Definition excess (es : list event) : Z :=
  Z.of_nat (count is_ctor es) - Z.of_nat (count is_dtor es).

(** * Verification *)

Ltac splits := repeat match goal with |- _ /\ _ => split end.

(** ** Storage words *)

Lemma read_write_read n s s' :
  read_words n (write_words (read_words n s) s') = read_words n s.
Proof.
  destruct s as [a b], s' as [a' b'].
  destruct n as [|[|n]]; reflexivity.
Qed.

Lemma read_write_fits n v s :
  List.length v = n -> (n <= 2)%nat -> read_words n (write_words v s) = v.
Proof.
  intros <- Hn. destruct s as [a b].
  destruct v as [|x [|y [|z v]]]; simpl in *; try reflexivity; lia.
Qed.

Lemma in_place_nothrow T :
  _In_place_callable T = true -> is_nothrow_move_constructible T = true.
Proof.
  unfold _In_place_callable. intros H.
  apply andb_true_iff in H. tauto.
Qed.

Lemma in_place_words T : _In_place_callable T = true -> (words_of T <= 2)%nat.
Proof.
  unfold _In_place_callable, words_of, sizeof_storage. intros H.
  apply andb_true_iff in H as [H _]. apply andb_true_iff in H as [H _].
  apply Z.leb_le in H.
  assert ((sizeof T + 7) / 8 < 3) by (apply Z.div_lt_upper_bound; lia).
  lia.
Qed.

Lemma count_app f es es' : count f (es ++ es') = (count f es + count f es')%nat.
Proof. unfold count. rewrite List.filter_app, List.length_app. reflexivity. Qed.

(** ** The occupant and the heap *)

Lemma occupant_same_heap w w' a : heap w' = heap w -> occupant w' a = occupant w a.
Proof.
  intros H. unfold occupant, Large.get_ref. rewrite H. reflexivity.
Qed.

Lemma occupant_empty w a : operations a = None -> occupant w a = None.
Proof. intros H. unfold occupant. rewrite H. reflexivity. Qed.

(** Only the block a boxed container points to matters to its occupant. *)
Lemma occupant_frame w w' a :
  (forall T p, operations a = Some T -> _In_place_callable T = false ->
     mem1 (storage a) = Z.pos p -> heap w' !! p = heap w !! p) ->
  occupant w' a = occupant w a.
Proof.
  intros H. unfold occupant, Large.get_ref, Large.get_ptr.
  destruct (operations a) as [T|]; [|reflexivity].
  destruct (_In_place_callable T) eqn:HT; [reflexivity|].
  destruct (mem1 (storage a)) as [|p|p] eqn:E; try reflexivity.
  rewrite (H T p eq_refl HT eq_refl). reflexivity.
Qed.

Lemma holds_frame w w' f T v :
  holds w f T v ->
  (_In_place_callable T = false ->
   forall p, mem1 (storage (any_callable_ f)) = Z.pos p -> heap w' !! p = heap w !! p) ->
  holds w' f T v.
Proof.
  intros (Ho & Hi & Hv) H. repeat split; try assumption.
  rewrite (occupant_frame w w'); [assumption|].
  intros T' p E HT' Hp. assert (T' = T) as -> by congruence. apply H; assumption.
Qed.

(** A boxed container that holds a value points to a live block. *)
Lemma holds_large w f T v :
  holds w f T v -> _In_place_callable T = false ->
  exists p, mem1 (storage (any_callable_ f)) = Z.pos p /\ heap w !! p = Some v.
Proof.
  intros (Ho & _ & Hv) HT. unfold occupant, Large.get_ref, Large.get_ptr in Hv.
  rewrite Ho, HT in Hv.
  destruct (mem1 (storage (any_callable_ f))) as [|p|p]; try discriminate.
  exists p. split; [reflexivity|].
  destruct (heap w !! p); congruence.
Qed.

Lemma holds_in_place w f T v :
  holds w f T v -> _In_place_callable T = true ->
  InPlace.get_ref T (any_callable_ f) = v.
Proof.
  intros (Ho & _ & Hv) HT. unfold occupant in Hv. rewrite Ho, HT in Hv. congruence.
Qed.

(** ** The table's move operation *)

Lemma move_spec T dst src w :
  exists dst' src' w',
    move (create_operations T) dst src w = Returned tt (dst', src') w' /\
    operations dst' = operations src /\
    operations src' = None /\
    heap w' = heap w /\ next w' = next w /\
    (operations src = Some T -> occupant w' dst' = occupant w src) /\
    (exists es, trace w' = trace w ++ es /\ transfer_only es) /\
    (_In_place_callable T = false ->
       storage dst' = storage src /\ storage src' = storage src /\ w' = w).
Proof.
  unfold create_operations, move, templated_move, manager_move_and_destroy.
  destruct (_In_place_callable T) eqn:HT.
  - unfold InPlace.move_and_destroy, InPlace.store, InPlace.destroy, construct.
    rewrite (in_place_nothrow T HT).
    eexists _, _, _. split; [reflexivity|]. simpl. splits; try reflexivity.
    + intros Hs. unfold occupant. simpl. rewrite Hs, HT.
      unfold InPlace.get_ref. simpl. rewrite read_write_read. reflexivity.
    + eexists. split; [rewrite <- app_assoc; reflexivity|]. repeat split.
    + discriminate.
  - eexists _, _, _. split; [reflexivity|]. simpl. splits; try reflexivity.
    + exists []. split; [rewrite app_nil_r; reflexivity|]. repeat split.
    + intros _. destruct w; repeat split.
Qed.

(** ** Invocation *)

Lemma call_empty f args w :
  operations (any_callable_ f) = None ->
  operator_call f args w = Threw bad_function_call f w.
Proof. intros H. unfold operator_call. rewrite H. reflexivity. Qed.

(** Invoking a container built for an in-place type: the heap is not
    touched, the captured state is written back into the storage. *)
Lemma call_in_place w f T v args :
  holds w f T v -> _In_place_callable T = true ->
  let f' := set_any (set_storage
                       (write_words (snd (call_operator T v args))
                                    (storage (any_callable_ f)))
                       (any_callable_ f)) f in
  operator_call f args w =
    match fst (call_operator T v args) with
    | inl x => Returned x f' w
    | inr code => Threw (thrown code) f' w
    end.
Proof.
  intros H HT. pose proof (holds_in_place _ _ _ _ H HT) as Hv.
  destruct H as (Ho & Hi & _). simpl.
  unfold operator_call. rewrite Ho, Hi. unfold manager_invoke. rewrite HT.
  unfold InPlace.invoke. rewrite Hv.
  destruct (call_operator T v args) as [[x|code] v']; reflexivity.
Qed.

(** Invoking a container built for a boxed type: the storage is not
    touched, the captured state is written back into the heap block. *)
Lemma call_large w f T v args :
  holds w f T v -> _In_place_callable T = false ->
  exists p, mem1 (storage (any_callable_ f)) = Z.pos p /\ heap w !! p = Some v /\
    let w' := {| heap := <[p := snd (call_operator T v args)]> (heap w);
                 next := next w; trace := trace w |} in
    operator_call f args w =
      match fst (call_operator T v args) with
      | inl x => Returned x f w'
      | inr code => Threw (thrown code) f w'
      end.
Proof.
  intros H HT. destruct (holds_large _ _ _ _ H HT) as (p & Hp & Hh).
  destruct H as (Ho & Hi & _). exists p. splits; try assumption. simpl.
  unfold operator_call. rewrite Ho, Hi. unfold manager_invoke. rewrite HT.
  unfold Large.invoke, Large.get_ref, Large.get_ptr. rewrite Hp, Hh.
  destruct f as [a i]. unfold set_any. simpl.
  destruct (call_operator T v args) as [[x|code] v']; reflexivity.
Qed.

Lemma call_outcome w f T v args :
  holds w f T v -> outcome (operator_call f args w) = Some (applied T v args).
Proof.
  intros H. unfold applied. destruct (_In_place_callable T) eqn:HT.
  - rewrite (call_in_place _ _ _ _ args H HT).
    destruct (fst (call_operator T v args)); reflexivity.
  - destruct (call_large _ _ _ _ args H HT) as (p & _ & _ & ->).
    destruct (fst (call_operator T v args)); reflexivity.
Qed.

(** ** Move construction *)

Lemma function_move_empty junk st i w :
  let src := {| any_callable_ := {| storage := st; operations := None |};
                invoker_ := i |} in
  function_move junk src w = Returned tt (function_default junk, src) w.
Proof. reflexivity. Qed.

Lemma function_move_spec junk src w T v :
  holds w src T v ->
  exists dst src' w',
    function_move junk src w = Returned tt (dst, src') w' /\
    holds w' dst T v /\
    operations (any_callable_ src') = None /\ invoker_ src' = None /\
    heap w' = heap w /\ next w' = next w /\
    (exists es, trace w' = trace w ++ es /\ transfer_only es) /\
    (_In_place_callable T = false ->
       storage (any_callable_ dst) = storage (any_callable_ src) /\
       storage (any_callable_ src') = storage (any_callable_ src) /\
       w' = w).
Proof.
  intros (Ho & Hi & Hv). unfold function_move. rewrite Ho.
  destruct (move_spec T (any_callable_ (function_default junk)) (any_callable_ src) w)
    as (d & s & w' & -> & Hd & Hs & Hh & Hn & Hocc & Htr & Hbox).
  eexists _, _, _. split; [reflexivity|]. simpl. splits; try assumption.
  - unfold holds. simpl. splits; [congruence | assumption |].
    rewrite (Hocc Ho). assumption.
  - reflexivity.
Qed.




Lemma demo_large_holds :
  holds (snd demo_large) (fst demo_large) large_lambda [10; 11; 12; 13].
Proof. repeat split. Qed.

Lemma demo_small_holds : holds (snd demo_small) (fst demo_small) add_two [0].
Proof. repeat split. Qed.


(** C3. Invoking an empty container — whatever its storage words are, so in
    particular a default-constructed one and one that has been moved from —
    throws the empty-invocation error and changes neither the container nor
    the world; invoking a non-empty container returns what its occupant
    returns, or throws what its occupant throws. *)
Theorem invocation_contract w f T v (H : holds w f T v) :
  (forall args, outcome (operator_call f args w) = Some (applied T v args)) /\
  (forall args x, fst (call_operator T v args) = inl x ->
      outcome (operator_call f args w) = Some (inl x)) /\
  (forall args code, fst (call_operator T v args) = inr code ->
      outcome (operator_call f args w) = Some (inr (thrown code))) /\
  (forall st i args w0,
      let e := {| any_callable_ := {| storage := st; operations := None |};
                  invoker_ := i |} in
      operator_call e args w0 = Threw bad_function_call e w0) /\
  (forall junk args w0,
      operator_call (function_default junk) args w0 =
        Threw bad_function_call (function_default junk) w0) /\
  (forall junk args,
      exists dst src' w',
        function_move junk f w = Returned tt (dst, src') w' /\
        operator_call src' args w' = Threw bad_function_call src' w').
Proof.
  splits.
  - intros args. apply call_outcome. assumption.
  - intros args x E. rewrite (call_outcome _ _ _ _ args H). unfold applied.
    rewrite E. reflexivity.
  - intros args code E. rewrite (call_outcome _ _ _ _ args H). unfold applied.
    rewrite E. reflexivity.
  - reflexivity.
  - reflexivity.
  - intros junk args.
    destruct (function_move_spec junk f w T v H) as (dst & src' & w' & E & _ & Ho & _).
    exists dst, src', w'. split; [assumption|]. apply call_empty. assumption.
Qed.

Lemma invocation_contract_witness :
  holds (snd demo_small) (fst demo_small) add_two [0] /\
  outcome (operator_call (fst demo_small) 3 (snd demo_small)) = Some (inl 5).
Proof.
  split; [repeat split|].
  apply (invocation_contract (snd demo_small) (fst demo_small) add_two [0]).
  - repeat split.
  - reflexivity.
Defined.

(** ** The table's copy and destroy operations *)

Lemma wf_world_fresh w : wf_world w -> heap w !! next w = None.
Proof.
  intros Hwf. destruct (heap w !! next w) as [u|] eqn:E; [|reflexivity].
  apply Hwf in E. lia.
Qed.

Lemma wf_world_insert_next w v es :
  wf_world w ->
  wf_world {| heap := <[next w := v]> (heap w); next := Pos.succ (next w); trace := es |}.
Proof.
  intros Hwf p u. simpl. rewrite lookup_insert. case_decide.
  - intros _. subst. lia.
  - intros E. apply Hwf in E. lia.
Qed.

Lemma copy_spec T dst src w v :
  operations src = Some T -> occupant w src = Some v ->
  copy_throws T v = None -> wf_world w ->
  exists dst' w',
    copy (create_operations T) dst src w = Returned tt dst' w' /\
    operations dst' = Some T /\
    occupant w' dst' = Some v /\
    wf_world w' /\
    (if _In_place_callable T
     then heap w' = heap w /\ next w' = next w /\
          trace w' = trace w ++ [EvCopyCtor v]
     else mem1 (storage dst') = Z.pos (next w) /\
          heap w' = <[next w := v]> (heap w) /\
          next w' = Pos.succ (next w) /\
          trace w' = trace w ++ [EvNew (next w); EvCopyCtor v]).
Proof.
  intros Ho Hv Hc Hwf.
  unfold create_operations, copy, templated_copy.
  unfold occupant in Hv. rewrite Ho in Hv.
  destruct (_In_place_callable T) eqn:HT.
  - injection Hv as Hv.
    unfold InPlace.store, construct. rewrite Hv, Hc.
    eexists _, _. split; [reflexivity|]. simpl. splits; try reflexivity.
    + assumption.
    + unfold occupant. simpl. rewrite Ho, HT. unfold InPlace.get_ref. simpl.
      rewrite <- Hv. unfold InPlace.get_ref. rewrite read_write_read. reflexivity.
    + intros p u. simpl. apply Hwf.
  - destruct (Large.get_ref src w) as [[q u]|] eqn:Hg; [|discriminate].
    injection Hv as ->.
    unfold Large.store, construct. rewrite Hc.
    eexists _, _. split; [reflexivity|]. simpl. splits; try reflexivity.
    + assumption.
    + unfold occupant. simpl. rewrite Ho, HT.
      unfold Large.get_ref, Large.get_ptr. simpl.
      rewrite lookup_insert_eq. reflexivity.
    + apply wf_world_insert_next. assumption.
Qed.

(** A throwing copy constructor: the exception propagates, the destination
    is untouched, no block stays allocated. *)
Lemma copy_throws_spec T dst src w v code :
  operations src = Some T -> occupant w src = Some v ->
  copy_throws T v = Some code ->
  exists w',
    copy (create_operations T) dst src w = Threw (thrown code) dst w' /\
    heap w' = heap w /\ next w' = next w.
Proof.
  intros Ho Hv Hc.
  unfold create_operations, copy, templated_copy.
  unfold occupant in Hv. rewrite Ho in Hv.
  destruct (_In_place_callable T) eqn:HT.
  - injection Hv as Hv.
    unfold InPlace.store, construct. rewrite Hv, Hc.
    eexists. splits; reflexivity.
  - destruct (Large.get_ref src w) as [[q u]|] eqn:Hg; [|discriminate].
    injection Hv as ->.
    unfold Large.store, construct. rewrite Hc.
    eexists. splits; reflexivity.
Qed.

Lemma destroy_spec T a w v :
  operations a = Some T -> occupant w a = Some v ->
  exists w',
    destroy (create_operations T) a w = Returned tt a w' /\
    next w' = next w /\
    (if _In_place_callable T
     then heap w' = heap w /\ trace w' = trace w ++ [EvDtor v]
     else exists p, mem1 (storage a) = Z.pos p /\ heap w !! p = Some v /\
          heap w' = delete p (heap w) /\
          trace w' = trace w ++ [EvDtor v; EvDelete p]).
Proof.
  intros Ho Hv.
  unfold create_operations, destroy, templated_destroy, manager_destroy.
  unfold occupant in Hv. rewrite Ho in Hv.
  destruct (_In_place_callable T) eqn:HT.
  - injection Hv as Hv. unfold InPlace.destroy. rewrite Hv.
    eexists. splits; reflexivity.
  - unfold Large.get_ref in Hv. unfold Large.destroy.
    destruct (Large.get_ptr a) as [|p|p] eqn:Hp; try discriminate.
    destruct (heap w !! p) as [u|] eqn:Hh; [|discriminate].
    injection Hv as ->.
    eexists. splits; try reflexivity.
    exists p. splits; try reflexivity; assumption.
Qed.

(** ** Copy construction and destruction *)

Lemma function_copy_spec junk x w T v :
  holds w x T v -> copy_throws T v = None -> wf_world w ->
  exists c w',
    function_copy junk x w = Returned tt c w' /\
    holds w' c T v /\ holds w' x T v /\ wf_world w' /\
    (if _In_place_callable T
     then heap w' = heap w /\ next w' = next w /\
          trace w' = trace w ++ [EvCopyCtor v]
     else mem1 (storage (any_callable_ c)) = Z.pos (next w) /\
          heap w' = <[next w := v]> (heap w) /\
          next w' = Pos.succ (next w) /\
          trace w' = trace w ++ [EvNew (next w); EvCopyCtor v]).
Proof.
  intros H Hc Hwf. pose proof H as (Ho & Hi & Hv).
  unfold function_copy. rewrite Ho.
  destruct (copy_spec T (any_callable_ (function_default junk)) (any_callable_ x)
              w v Ho Hv Hc Hwf) as (d & w' & -> & Hd & Hdv & Hwf' & Hmode).
  eexists _, _. split; [reflexivity|]. splits; try assumption.
  - repeat split; assumption.
  - apply (holds_frame w); [assumption|]. intros HT p Hp.
    rewrite HT in Hmode. destruct Hmode as (_ & -> & _).
    destruct (holds_large _ _ _ _ H HT) as (p' & Hp' & Hh).
    assert (p' = p) as -> by congruence.
    apply Hwf in Hh. rewrite lookup_insert_ne by lia. reflexivity.
Qed.

Lemma function_copy_empty junk st i w :
  function_copy junk {| any_callable_ := {| storage := st; operations := None |};
                        invoker_ := i |} w
  = Returned tt (function_default junk) w.
Proof. reflexivity. Qed.

Lemma function_destroy_spec f w T v :
  holds w f T v ->
  exists f' w',
    function_destroy f w = Returned tt f' w' /\
    operations (any_callable_ f') = None /\
    storage (any_callable_ f') = storage (any_callable_ f) /\
    next w' = next w /\
    (if _In_place_callable T
     then heap w' = heap w /\ trace w' = trace w ++ [EvDtor v]
     else exists p, mem1 (storage (any_callable_ f)) = Z.pos p /\
          heap w !! p = Some v /\
          heap w' = delete p (heap w) /\
          trace w' = trace w ++ [EvDtor v; EvDelete p]).
Proof.
  intros (Ho & Hi & Hv). unfold function_destroy, operator_bool, unset. rewrite Ho.
  destruct (destroy_spec T (any_callable_ f) w v Ho Hv) as (w' & -> & Hn & Hmode).
  eexists _, _. split; [reflexivity|]. splits; try assumption; reflexivity.
Qed.

Lemma function_destroy_empty st i w :
  let e := {| any_callable_ := {| storage := st; operations := None |};
              invoker_ := i |} in
  function_destroy e w = Returned tt e w.
Proof. reflexivity. Qed.

(** C2. Copy construction from a non-empty container (whose occupant's copy
    constructor does not throw) yields an independent container: the copy
    holds the value the original holds at the time of the copy and so gives
    the same invocation results; an invocation of either one, which may
    change the captured state of its occupant, leaves the occupant of the
    other unchanged; after the original is destroyed the copy still holds
    the value and gives the results the original gave.  For a boxed occupant
    the copy points to a block of its own. *)
Theorem copy_construction_independent junk x w T v
    (H : holds w x T v) (Hc : copy_throws T v = None) (Hwf : wf_world w) :
  exists c w',
    function_copy junk x w = Returned tt c w' /\
    holds w' c T v /\ holds w' x T v /\
    (forall args,
        outcome (operator_call c args w') = outcome (operator_call x args w)) /\
    (forall args c' w'',
        after (operator_call c args w') = Some (c', w'') -> holds w'' x T v) /\
    (forall args x' w'',
        after (operator_call x args w') = Some (x', w'') -> holds w'' c T v) /\
    (exists x' w'',
        function_destroy x w' = Returned tt x' w'' /\
        holds w'' c T v /\
        forall args,
          outcome (operator_call c args w'') = outcome (operator_call x args w)) /\
    (_In_place_callable T = false ->
       exists p q,
         mem1 (storage (any_callable_ x)) = Z.pos p /\
         mem1 (storage (any_callable_ c)) = Z.pos q /\
         p <> q /\ heap w !! q = None /\
         heap w' !! p = Some v /\ heap w' !! q = Some v).
Proof.
  destruct (function_copy_spec junk x w T v H Hc Hwf)
    as (c & w' & E & Hcv & Hxv & Hwf' & Hmode).
  exists c, w'. split; [assumption|].
  assert (Hsep : _In_place_callable T = false ->
            exists p q,
              mem1 (storage (any_callable_ x)) = Z.pos p /\
              mem1 (storage (any_callable_ c)) = Z.pos q /\
              p <> q /\ heap w !! q = None /\
              heap w' !! p = Some v /\ heap w' !! q = Some v).
  { intros HT. rewrite HT in Hmode. destruct Hmode as (Hq & Hh & _).
    destruct (holds_large _ _ _ _ H HT) as (p & Hp & Hl).
    pose proof (Hwf _ _ Hl) as Hlt.
    exists p, (next w). splits; try assumption.
    - lia.
    - apply wf_world_fresh. assumption.
    - rewrite Hh, lookup_insert_ne by lia. assumption.
    - rewrite Hh. apply lookup_insert_eq. }
  splits; try assumption.
  - intros args. rewrite (call_outcome _ _ _ _ args Hcv).
    rewrite (call_outcome _ _ _ _ args H). reflexivity.
  - intros args c' w'' Ha. destruct (_In_place_callable T) eqn:HT.
    + rewrite (call_in_place _ _ _ _ args Hcv HT) in Ha.
      destruct (fst (call_operator T v args)); injection Ha as _ <-; assumption.
    + destruct (Hsep eq_refl) as (p & q & Hp & Hq & Hne & _).
      destruct (call_large _ _ _ _ args Hcv HT) as (q' & Hq' & _ & Ecall).
      assert (q' = q) as -> by congruence.
      rewrite Ecall in Ha.
      apply (holds_frame w'); [assumption|]. intros _ p' Hp'.
      assert (p' = p) as -> by congruence.
      destruct (fst (call_operator T v args)); injection Ha as _ <-; simpl;
        rewrite lookup_insert_ne by congruence; reflexivity.
  - intros args x' w'' Ha. destruct (_In_place_callable T) eqn:HT.
    + rewrite (call_in_place _ _ _ _ args Hxv HT) in Ha.
      destruct (fst (call_operator T v args)); injection Ha as _ <-; assumption.
    + destruct (Hsep eq_refl) as (p & q & Hp & Hq & Hne & _).
      destruct (call_large _ _ _ _ args Hxv HT) as (p' & Hp' & _ & Ecall).
      assert (p' = p) as -> by congruence.
      rewrite Ecall in Ha.
      apply (holds_frame w'); [assumption|]. intros _ q' Hq'.
      assert (q' = q) as -> by congruence.
      destruct (fst (call_operator T v args)); injection Ha as _ <-; simpl;
        rewrite lookup_insert_ne by congruence; reflexivity.
  - destruct (function_destroy_spec x w' T v Hxv) as (x' & w'' & Ed & _ & _ & _ & Hd).
    exists x', w''. split; [assumption|].
    assert (Hc'' : holds w'' c T v).
    { apply (holds_frame w'); [assumption|]. intros HT q' Hq'.
      rewrite HT in Hd.
      destruct (Hsep HT) as (p & q & Hp & Hq & Hne & _).
      destruct Hd as (p' & Hp' & _ & -> & _).
      assert (p' = p) as -> by congruence.
      assert (q' = q) as -> by congruence.
      rewrite lookup_delete_ne by congruence. reflexivity. }
    split; [assumption|].
    intros args. rewrite (call_outcome _ _ _ _ args Hc'').
    rewrite (call_outcome _ _ _ _ args H). reflexivity.
Qed.

(** ** Construction from a callable *)

Lemma wf_world_empty : wf_world empty_world.
Proof. intros p v. simpl. rewrite lookup_empty. discriminate. Qed.

Lemma construct_value T cat v obj s : construct T cat v = inr (obj, s) -> obj = v.
Proof.
  unfold construct. destruct cat.
  - destruct (copy_throws T v); congruence.
  - destruct (is_nothrow_move_constructible T); [congruence|].
    destruct (move_throws T v); congruence.
Qed.

(** Construction of a container from a callable of an in-place type. *)
Lemma function_from_callable_in_place junk T cat v w :
  _In_place_callable T = true -> constructible T cat v ->
  function_from_callable junk T cat v w =
    Returned tt
      {| any_callable_ := {| storage := write_words v junk; operations := Some T |};
         invoker_ := Some (manager_invoke T) |}
      (log [ctor_event cat v] w).
Proof.
  intros HT Hc. unfold function_from_callable, set, manager_store. rewrite HT.
  unfold InPlace.store. rewrite Hc. reflexivity.
Qed.

(** Construction of a container from a callable of a boxed type. *)
Lemma function_from_callable_large junk T cat v w :
  _In_place_callable T = false -> constructible T cat v ->
  function_from_callable junk T cat v w =
    Returned tt
      {| any_callable_ := {| storage := {| mem1 := Z.pos (next w); mem2 := mem2 junk |};
                             operations := Some T |};
         invoker_ := Some (manager_invoke T) |}
      {| heap := <[next w := v]> (heap w);
         next := Pos.succ (next w);
         trace := trace w ++ [EvNew (next w); ctor_event cat v] |}.
Proof.
  intros HT Hc. unfold function_from_callable, set, manager_store. rewrite HT.
  unfold Large.store. rewrite Hc. reflexivity.
Qed.

Lemma function_from_callable_spec junk T cat v w :
  wf_world w -> constructible T cat v -> List.length v = words_of T ->
  exists f w',
    function_from_callable junk T cat v w = Returned tt f w' /\
    holds w' f T v /\ wf_world w'.
Proof.
  intros Hwf Hc Hlen. destruct (_In_place_callable T) eqn:HT.
  - rewrite (function_from_callable_in_place junk T cat v w HT Hc).
    eexists _, _. split; [reflexivity|]. split.
    + repeat split. unfold occupant. simpl. rewrite HT. unfold InPlace.get_ref. simpl.
      rewrite read_write_fits; auto using in_place_words.
    + intros p u. simpl. apply Hwf.
  - rewrite (function_from_callable_large junk T cat v w HT Hc).
    eexists _, _. split; [reflexivity|]. split.
    + repeat split. unfold occupant. simpl. rewrite HT.
      unfold Large.get_ref, Large.get_ptr. simpl. rewrite lookup_insert_eq. reflexivity.
    + apply wf_world_insert_next. assumption.
Qed.

(** The containers of the demonstration program hold their callables, in
    well-formed worlds. *)
Lemma built_from_callable T cat v :
  constructible T cat v -> List.length v = words_of T ->
  let fw := built (function_from_callable junk0 T cat v empty_world) in
  holds (snd fw) (fst fw) T v /\ wf_world (snd fw).
Proof.
  intros Hc Hlen.
  destruct (function_from_callable_spec junk0 T cat v empty_world
              wf_world_empty Hc Hlen) as (f & w' & E & Hf & Hwf).
  simpl. rewrite E. simpl. split; assumption.
Qed.

(** ** Mode selection *)

Lemma in_place_iff T :
  _In_place_callable T = true <->
  fits_in_storage T /\ alignment_compatible T /\ relocatable T.
Proof.
  unfold _In_place_callable, fits_in_storage, alignment_compatible, relocatable.
  rewrite !andb_true_iff, Z.leb_le, Z.eqb_eq.
  assert (alignment_of_storage mod alignment_of T = 0 <->
          exists k, alignment_of_storage = k * alignment_of T) as ->; [|tauto].
  destruct (Z.eq_dec (alignment_of T) 0) as [E|E].
  - rewrite E, Z.mod_0_r. unfold alignment_of_storage. split; [discriminate|].
    intros [k Hk]. lia.
  - apply Z.mod_divide. assumption.
Qed.

(** C6. A concrete callable type satisfies [_In_place_callable] if and only
    if its size does not exceed the size of the storage region, the region's
    alignment is an integer multiple of the type's alignment, and the type
    is nothrow-move-constructible.  A container built from a callable of a
    qualifying type has the callable's words in its storage and the heap is
    not touched; for a type failing any one condition the storage holds a
    pointer to a new heap block that holds the callable. *)
Theorem inline_qualification junk T cat v w (Hc : constructible T cat v) :
  (_In_place_callable T = true <->
     fits_in_storage T /\ alignment_compatible T /\ relocatable T) /\
  (fits_in_storage T /\ alignment_compatible T /\ relocatable T ->
     exists f w',
       function_from_callable junk T cat v w = Returned tt f w' /\
       storage (any_callable_ f) = write_words v junk /\
       heap w' = heap w /\ next w' = next w) /\
  (~ (fits_in_storage T /\ alignment_compatible T /\ relocatable T) ->
     exists f w',
       function_from_callable junk T cat v w = Returned tt f w' /\
       Large.get_ptr (any_callable_ f) = Z.pos (next w) /\
       heap w' = <[next w := v]> (heap w)).
Proof.
  splits.
  - apply in_place_iff.
  - intros Hq. apply in_place_iff in Hq.
    rewrite (function_from_callable_in_place junk T cat v w Hq Hc).
    eexists _, _. splits; reflexivity.
  - intros Hq. rewrite <- in_place_iff in Hq. apply not_true_is_false in Hq.
    rewrite (function_from_callable_large junk T cat v w Hq Hc).
    eexists _, _. splits; reflexivity.
Qed.

Lemma function_from_callable_large_holds junk T cat v w :
  _In_place_callable T = false -> constructible T cat v ->
  exists f w',
    function_from_callable junk T cat v w = Returned tt f w' /\
    holds w' f T v /\
    Large.get_ptr (any_callable_ f) = Z.pos (next w) /\
    heap w' = <[next w := v]> (heap w) /\
    trace w' = trace w ++ [EvNew (next w); ctor_event cat v].
Proof.
  intros HT Hc. rewrite (function_from_callable_large junk T cat v w HT Hc).
  eexists _, _. split; [reflexivity|]. splits; try reflexivity.
  repeat split. unfold occupant. simpl. rewrite HT.
  unfold Large.get_ref, Large.get_ptr. simpl. rewrite lookup_insert_eq. reflexivity.
Qed.

Lemma count_ctor_event f cat v :
  f (EvCopyCtor v) = false -> f (EvMoveCtor v) = false ->
  count f [ctor_event cat v] = 0%nat.
Proof. intros H1 H2. unfold count. destruct cat; simpl; rewrite ?H1, ?H2; reflexivity. Qed.

(** C5, as the code has it.  Constructing a container from a callable of a
    type that qualifies for in-place storage performs no heap allocation:
    the callable's words are placed in the two-word storage.  Constructing
    it from a callable of any other type performs exactly one allocation and
    no release; destroying the container releases that block, once, and
    restores the heap; after a move the block is released once, by the
    destruction of the destination, and the destruction of the source
    releases nothing. *)
Theorem storage_mode_allocation junk T cat v w
    (Hc : constructible T cat v) (Hwf : wf_world w) :
  (_In_place_callable T = true ->
     exists f w' es,
       function_from_callable junk T cat v w = Returned tt f w' /\
       storage (any_callable_ f) = write_words v junk /\
       heap w' = heap w /\
       trace w' = trace w ++ es /\ count is_new es = 0%nat) /\
  (_In_place_callable T = false ->
     exists f w' es,
       function_from_callable junk T cat v w = Returned tt f w' /\
       trace w' = trace w ++ es /\
       count is_new es = 1%nat /\ count is_delete es = 0%nat /\
       (exists f' w'' ds,
           function_destroy f w' = Returned tt f' w'' /\
           trace w'' = trace w' ++ ds /\
           count is_new ds = 0%nat /\ count is_delete ds = 1%nat /\
           heap w'' = heap w) /\
       (forall junk',
           exists g f',
             function_move junk' f w' = Returned tt (g, f') w' /\
             function_destroy f' w' = Returned tt f' w' /\
             exists g' w'' ds,
               function_destroy g w' = Returned tt g' w'' /\
               trace w'' = trace w' ++ ds /\
               count is_new ds = 0%nat /\ count is_delete ds = 1%nat /\
               heap w'' = heap w)).
Proof.
  split; intros HT.
  - rewrite (function_from_callable_in_place junk T cat v w HT Hc).
    eexists _, _, _. splits; try reflexivity.
    apply count_ctor_event; reflexivity.
  - destruct (function_from_callable_large_holds junk T cat v w HT Hc)
      as (f & w' & -> & Hf & Hp & Hh & Htr).
    assert (Hrelease : forall g, holds w' g T v ->
              Large.get_ptr (any_callable_ g) = Z.pos (next w) ->
              exists g' w'' ds,
                function_destroy g w' = Returned tt g' w'' /\
                trace w'' = trace w' ++ ds /\
                count is_new ds = 0%nat /\ count is_delete ds = 1%nat /\
                heap w'' = heap w).
    { intros g Hg Hgp.
      destruct (function_destroy_spec g w' T v Hg) as (g' & w'' & -> & _ & _ & _ & Hd).
      rewrite HT in Hd. destruct Hd as (p & Hp' & _ & Hh'' & Htr'').
      unfold Large.get_ptr in Hgp. assert (p = next w) as -> by congruence.
      eexists _, _, _. splits; [reflexivity | eassumption | reflexivity | reflexivity |].
      rewrite Hh'', Hh. apply delete_insert_id, wf_world_fresh. assumption. }
    exists f, w', [EvNew (next w); ctor_event cat v].
    splits; try assumption; try reflexivity.
    + destruct cat; reflexivity.
    + destruct cat; reflexivity.
    + apply Hrelease; assumption.
    + intros junk'.
      destruct (function_move_spec junk' f w' T v Hf)
        as (g & f' & w1 & E & Hg & Ho & _ & _ & _ & _ & Hbox).
      destruct (Hbox HT) as (Hgs & _ & ->).
      exists g, f'. splits; [assumption | |].
      * unfold function_destroy, operator_bool. rewrite Ho. reflexivity.
      * apply Hrelease; [assumption|].
        unfold Large.get_ptr in *. rewrite Hgs. assumption.
Qed.

(** C5, counterexample to the claim as stated: an 8-byte callable lies
    within the size of the storage region, yet constructing a container
    from it allocates a heap block, because its move constructor is not
    [noexcept]. *)
Lemma size_threshold_counterexample :
  sizeof small_throwing_move <= sizeof_storage /\
  alignment_of_storage mod alignment_of small_throwing_move = 0 /\
  exists f w',
    function_from_callable junk0 small_throwing_move rvalue [5] empty_world
      = Returned tt f w' /\
    count is_new (trace w') = 1%nat /\
    heap w' !! 1%positive = Some [5] /\
    storage (any_callable_ f) = {| mem1 := 1; mem2 := mem2 junk0 |}.
Proof.
  splits; [unfold sizeof_storage; simpl; lia | reflexivity |].
  eexists _, _. splits; reflexivity.
Qed.

(** ** Swap *)

Lemma transfer_only_nil : transfer_only [].
Proof. repeat split. Qed.

Lemma transfer_only_app es es' :
  transfer_only es -> transfer_only es' -> transfer_only (es ++ es').
Proof.
  unfold transfer_only. intros (A1 & A2 & A3) (B1 & B2 & B3).
  rewrite !count_app, A1, A2, A3, B1, B2, B3. repeat split.
Qed.

(** The three guarded moves of [swap], then the exchange of the invokers:
    each side ends with the table reference, the invoker reference and the
    occupant of the other; a boxed occupant travels as its storage words. *)
Lemma swap_spec junk a b w :
  exists a' b' w',
    swap junk a b w = Returned tt (a', b') w' /\
    (operations (any_callable_ a') = operations (any_callable_ b) /\
     invoker_ a' = invoker_ b /\
     occupant w' (any_callable_ a') = occupant w (any_callable_ b)) /\
    (operations (any_callable_ b') = operations (any_callable_ a) /\
     invoker_ b' = invoker_ a /\
     occupant w' (any_callable_ b') = occupant w (any_callable_ a)) /\
    heap w' = heap w /\ next w' = next w /\
    (exists es, trace w' = trace w ++ es /\ transfer_only es) /\
    (forall T, operations (any_callable_ b) = Some T -> _In_place_callable T = false ->
       storage (any_callable_ a') = storage (any_callable_ b)) /\
    (forall T, operations (any_callable_ a) = Some T -> _In_place_callable T = false ->
       storage (any_callable_ b') = storage (any_callable_ a)).
Proof.
  unfold swap.
  (* step 1: oth into the temporary *)
  assert (exists t b1 w1,
    match operations (any_callable_ b) with
    | Some T =>
        match move (create_operations T) {| storage := junk; operations := None |}
                (any_callable_ b) w with
        | Returned _ (t, o) w => Some (t, set_any o b, w)
        | _ => None
        end
    | None => Some ({| storage := junk; operations := None |}, b, w)
    end = Some (t, b1, w1) /\
    operations t = operations (any_callable_ b) /\
    occupant w1 t = occupant w (any_callable_ b) /\
    operations (any_callable_ b1) = None /\ invoker_ b1 = invoker_ b /\
    heap w1 = heap w /\ next w1 = next w /\
    (exists es, trace w1 = trace w ++ es /\ transfer_only es) /\
    (forall T, operations (any_callable_ b) = Some T -> _In_place_callable T = false ->
       storage t = storage (any_callable_ b)))
    as (t & b1 & w1 & -> & Ht & Hto & Hb1 & Hb1i & Hh1 & Hn1 & (es1 & Htr1 & Hes1) & Hbox1).
  { destruct (operations (any_callable_ b)) as [T|] eqn:Hb.
    - destruct (move_spec T {| storage := junk; operations := None |} (any_callable_ b) w)
        as (d & s & w1 & -> & Hd & Hs & Hh & Hn & Hocc & Htr & Hbox).
      eexists _, _, _. split; [reflexivity|]. simpl. splits; try assumption; try reflexivity.
      + congruence.
      + rewrite (Hocc Hb). reflexivity.
      + intros T' E HT'. assert (T' = T) as -> by congruence. apply Hbox. assumption.
    - eexists _, _, _. split; [reflexivity|]. simpl. splits; try reflexivity.
      + unfold occupant. simpl. rewrite Hb. reflexivity.
      + assumption.
      + exists []. split; [rewrite app_nil_r; reflexivity | apply transfer_only_nil].
      + discriminate. }
  (* step 2: this into oth *)
  assert (exists a2 b2 w2,
    match operations (any_callable_ a) with
    | Some T =>
        match move (create_operations T) (any_callable_ b1) (any_callable_ a) w1 with
        | Returned _ (o, t) w => Some (set_any t a, set_any o b1, w)
        | _ => None
        end
    | None => Some (a, b1, w1)
    end = Some (a2, b2, w2) /\
    operations (any_callable_ b2) = operations (any_callable_ a) /\
    occupant w2 (any_callable_ b2) = occupant w (any_callable_ a) /\
    invoker_ b2 = invoker_ b /\
    operations (any_callable_ a2) = None /\ invoker_ a2 = invoker_ a /\
    heap w2 = heap w /\ next w2 = next w /\
    (exists es, trace w2 = trace w ++ es /\ transfer_only es) /\
    (forall T, operations (any_callable_ a) = Some T -> _In_place_callable T = false ->
       storage (any_callable_ b2) = storage (any_callable_ a)))
    as (a2 & b2 & w2 & -> & Hb2 & Hb2o & Hb2i & Ha2 & Ha2i & Hh2 & Hn2
        & (es2 & Htr2 & Hes2) & Hbox2).
  { destruct (operations (any_callable_ a)) as [T|] eqn:Ha.
    - destruct (move_spec T (any_callable_ b1) (any_callable_ a) w1)
        as (d & s & w2 & -> & Hd & Hs & Hh & Hn & Hocc & (es & Htr & Hes) & Hbox).
      eexists _, _, _. split; [reflexivity|]. simpl. splits; try assumption; try reflexivity.
      + congruence.
      + rewrite (Hocc Ha). apply occupant_same_heap. assumption.
      + congruence.
      + congruence.
      + exists (es1 ++ es). split; [|apply transfer_only_app; assumption].
        rewrite Htr, Htr1, app_assoc. reflexivity.
      + intros T' E HT'. assert (T' = T) as -> by congruence. apply Hbox. assumption.
    - eexists _, _, _. split; [reflexivity|]. splits; try assumption; try reflexivity.
      + rewrite (occupant_empty _ _ Hb1). unfold occupant. rewrite Ha. reflexivity.
      + exists es1. split; assumption.
      + discriminate. }
  (* step 3: the temporary into this *)
  assert (exists a3 w3,
    match operations t with
    | Some T =>
        match move (create_operations T) (any_callable_ a2) t w2 with
        | Returned _ (t', _) w => Some (set_any t' a2, w)
        | _ => None
        end
    | None => Some (a2, w2)
    end = Some (a3, w3) /\
    operations (any_callable_ a3) = operations (any_callable_ b) /\
    occupant w3 (any_callable_ a3) = occupant w (any_callable_ b) /\
    invoker_ a3 = invoker_ a /\
    heap w3 = heap w /\ next w3 = next w /\
    (exists es, trace w3 = trace w ++ es /\ transfer_only es) /\
    (forall T, operations (any_callable_ b) = Some T -> _In_place_callable T = false ->
       storage (any_callable_ a3) = storage (any_callable_ b)))
    as (a3 & w3 & -> & Ha3 & Ha3o & Ha3i & Hh3 & Hn3 & Htr3 & Hbox3).
  { destruct (operations t) as [T|] eqn:Htt.
    - destruct (move_spec T (any_callable_ a2) t w2)
        as (d & s & w3 & -> & Hd & Hs & Hh & Hn & Hocc & (es & Htr & Hes) & Hbox).
      eexists _, _. split; [reflexivity|]. simpl. splits; try assumption; try reflexivity.
      + congruence.
      + rewrite (Hocc Htt). rewrite <- Hto. apply occupant_same_heap. congruence.
      + congruence.
      + congruence.
      + exists (es2 ++ es). split; [|apply transfer_only_app; assumption].
        rewrite Htr, Htr2, app_assoc. reflexivity.
      + intros T' E HT'. assert (T' = T) as -> by congruence.
        destruct (Hbox HT') as (-> & _). apply (Hbox1 T); assumption.
    - eexists _, _. split; [reflexivity|]. splits; try assumption; try reflexivity.
      + congruence.
      + rewrite (occupant_empty _ _ Ha2). rewrite <- Hto.
        rewrite (occupant_empty _ _ Htt). reflexivity.
      + exists es2. split; assumption.
      + intros T' E. congruence. }
  eexists _, _, _. split; [reflexivity|]. simpl.
  splits; try assumption; try reflexivity.
  rewrite <- Hb2o. apply occupant_same_heap. congruence.
Qed.

(** Swapping a container with itself gives it back its table reference,
    its invoker reference and its occupant. *)
Lemma swap_self_spec junk x w :
  exists x' w',
    swap_self junk x w = Returned tt x' w' /\
    operations (any_callable_ x') = operations (any_callable_ x) /\
    invoker_ x' = invoker_ x /\
    occupant w' (any_callable_ x') = occupant w (any_callable_ x) /\
    heap w' = heap w.
Proof.
  unfold swap_self. destruct (operations (any_callable_ x)) as [T|] eqn:Ho.
  - destruct (move_spec T {| storage := junk; operations := None |} (any_callable_ x) w)
      as (t & o & w1 & -> & Ht & Hs & Hh1 & _ & Hocc1 & _).
    cbn [any_callable_ set_any]. rewrite Hs, Ht, Ho.
    destruct (move_spec T o t w1) as (d & s & w2 & -> & Hd & _ & Hh2 & _ & Hocc2 & _).
    eexists _, _. split; [reflexivity|]. simpl. splits.
    + congruence.
    + reflexivity.
    + rewrite Hocc2 by congruence. apply Hocc1. assumption.
    + congruence.
  - simpl. rewrite Ho. eexists _, _. split; [reflexivity|].
    splits; try reflexivity. assumption.
Qed.

Lemma holds_transfer w w' f g T v :
  holds w f T v ->
  operations (any_callable_ g) = operations (any_callable_ f) ->
  invoker_ g = invoker_ f ->
  occupant w' (any_callable_ g) = occupant w (any_callable_ f) ->
  holds w' g T v.
Proof.
  intros (Ho & Hi & Hv) Eo Ei Ev. repeat split; congruence.
Qed.

Lemma references_agree_transfer f g :
  references_agree f ->
  operations (any_callable_ g) = operations (any_callable_ f) ->
  invoker_ g = invoker_ f ->
  references_agree g.
Proof. unfold references_agree. intros H -> ->. assumption. Qed.

(** C8. For every two containers [a] and [b] — empty or not, of the same or
    of different callable types — [swap] returns, and afterwards each side
    has the Dispatch Table reference, the Invoker reference and the occupant
    (the storage content its table reads; for a boxed occupant the storage
    words themselves) that the other side had, so a side is valid when the
    other was; the heap is unchanged.  A second swap gives both sides their
    original table reference, invoker reference and occupant back. *)
Theorem swap_exchanges_and_is_involutive junk junk' a b w :
  exists a1 b1 w1 a2 b2 w2,
    swap junk a b w = Returned tt (a1, b1) w1 /\
    swap junk' a1 b1 w1 = Returned tt (a2, b2) w2 /\
    (operations (any_callable_ a1) = operations (any_callable_ b) /\
     invoker_ a1 = invoker_ b /\
     occupant w1 (any_callable_ a1) = occupant w (any_callable_ b)) /\
    (operations (any_callable_ b1) = operations (any_callable_ a) /\
     invoker_ b1 = invoker_ a /\
     occupant w1 (any_callable_ b1) = occupant w (any_callable_ a)) /\
    (forall T v, holds w b T v -> holds w1 a1 T v) /\
    (forall T v, holds w a T v -> holds w1 b1 T v) /\
    (references_agree b -> references_agree a1) /\
    (references_agree a -> references_agree b1) /\
    (forall T, operations (any_callable_ b) = Some T -> _In_place_callable T = false ->
       storage (any_callable_ a1) = storage (any_callable_ b)) /\
    (forall T, operations (any_callable_ a) = Some T -> _In_place_callable T = false ->
       storage (any_callable_ b1) = storage (any_callable_ a)) /\
    (operations (any_callable_ a2) = operations (any_callable_ a) /\
     invoker_ a2 = invoker_ a /\
     occupant w2 (any_callable_ a2) = occupant w (any_callable_ a)) /\
    (operations (any_callable_ b2) = operations (any_callable_ b) /\
     invoker_ b2 = invoker_ b /\
     occupant w2 (any_callable_ b2) = occupant w (any_callable_ b)) /\
    (forall T v, holds w a T v -> holds w2 a2 T v) /\
    (forall T v, holds w b T v -> holds w2 b2 T v) /\
    (forall T, operations (any_callable_ a) = Some T -> _In_place_callable T = false ->
       storage (any_callable_ a2) = storage (any_callable_ a)) /\
    (forall T, operations (any_callable_ b) = Some T -> _In_place_callable T = false ->
       storage (any_callable_ b2) = storage (any_callable_ b)) /\
    heap w1 = heap w /\ heap w2 = heap w.
Proof.
  destruct (swap_spec junk a b w)
    as (a1 & b1 & w1 & E1 & (Ao & Ai & Av) & (Bo & Bi & Bv) & Hh1 & _ & _ & As & Bs).
  destruct (swap_spec junk' a1 b1 w1)
    as (a2 & b2 & w2 & E2 & (Ao2 & Ai2 & Av2) & (Bo2 & Bi2 & Bv2) & Hh2 & _ & _ & As2 & Bs2).
  exists a1, b1, w1, a2, b2, w2.
  assert (Xa : operations (any_callable_ a2) = operations (any_callable_ a)) by congruence.
  assert (Xb : operations (any_callable_ b2) = operations (any_callable_ b)) by congruence.
  assert (Ya : invoker_ a2 = invoker_ a) by congruence.
  assert (Yb : invoker_ b2 = invoker_ b) by congruence.
  assert (Za : occupant w2 (any_callable_ a2) = occupant w (any_callable_ a)) by congruence.
  assert (Zb : occupant w2 (any_callable_ b2) = occupant w (any_callable_ b)) by congruence.
  splits; try assumption.
  - intros T v H. apply (holds_transfer w w1 b); assumption.
  - intros T v H. apply (holds_transfer w w1 a); assumption.
  - intros H. apply (references_agree_transfer b); assumption.
  - intros H. apply (references_agree_transfer a); assumption.
  - intros T v H. apply (holds_transfer w w2 a); assumption.
  - intros T v H. apply (holds_transfer w w2 b); assumption.
  - intros T Ho HT. rewrite (As2 T), (Bs T); congruence.
  - intros T Ho HT. rewrite (Bs2 T), (As T); congruence.
  - congruence.
Qed.

Lemma swap_exchanges_and_is_involutive_witness :
  exists a1 b1 w1 a2 b2 w2,
    swap junk1 (fst demo_small) (function_default junk1) (snd demo_small)
      = Returned tt (a1, b1) w1 /\
    swap junk0 a1 b1 w1 = Returned tt (a2, b2) w2 /\
    operator_bool a1 = false /\
    holds w1 b1 add_two [0] /\
    holds w2 a2 add_two [0] /\
    operator_bool b2 = false.
Proof.
  destruct (swap_exchanges_and_is_involutive junk1 junk0 (fst demo_small)
              (function_default junk1) (snd demo_small))
    as (a1 & b1 & w1 & a2 & b2 & w2 & E1 & E2 & (Ao & _) & _ & _ & Hb1 & _ & _ & _ & _
        & _ & (Bo & _) & Ha2 & _).
  exists a1, b1, w1, a2, b2, w2. splits; try assumption.
  - unfold operator_bool. rewrite Ao. reflexivity.
  - apply Hb1. repeat split.
  - apply Ha2. repeat split.
  - unfold operator_bool. rewrite Bo. reflexivity.
Defined.

(** ** Assignment from a container *)

(** When the copy made for the by-value parameter throws, the assigned-to
    container is not touched. *)
Lemma assign_copy_failure jp jt this y w T v code :
  holds w y T v -> copy_throws T v = Some code ->
  exists w',
    assign_copy jp jt this y w = Threw (thrown code) this w' /\
    heap w' = heap w /\ next w' = next w.
Proof.
  intros (Ho & _ & Hv) Hc. unfold assign_copy, function_copy. rewrite Ho.
  destruct (copy_throws_spec T (any_callable_ (function_default jp)) (any_callable_ y)
              w v code Ho Hv Hc) as (w' & -> & Hh & Hn).
  exists w'. splits; [reflexivity | assumption | assumption].
Qed.

(** Assigning a non-empty container [y] to a non-empty container: the
    target ends up holding a copy of [y]'s occupant, and the parameter
    carries the target's former occupant to its destruction. *)
Lemma assign_copy_spec jp jt this y w T v T0 v0 :
  holds w y T v -> copy_throws T v = None -> wf_world w ->
  holds w this T0 v0 ->
  exists this' w',
    assign_copy jp jt this y w = Returned tt this' w' /\
    holds w' this' T v /\
    (_In_place_callable T0 = false ->
       exists p0, mem1 (storage (any_callable_ this)) = Z.pos p0 /\
                  heap w' !! p0 = None) /\
    exists es, trace w' = trace w ++ es /\
               count is_delete es = (if _In_place_callable T0 then 0 else 1)%nat.
Proof.
  intros Hy Hc Hwf Ht. unfold assign_copy, assign_body.
  destruct (function_copy_spec jp y w T v Hy Hc Hwf)
    as (c & w1 & -> & Hcv & _ & Hwf1 & Hmode).
  (* the target is intact after the copy *)
  assert (Ht1 : holds w1 this T0 v0).
  { apply (holds_frame w); [assumption|]. intros HT0 p Hp.
    destruct (holds_large _ _ _ _ Ht HT0) as (p' & Hp' & Hl).
    assert (p' = p) as -> by congruence. apply Hwf in Hl.
    destruct (_In_place_callable T).
    - destruct Hmode as (-> & _). reflexivity.
    - destruct Hmode as (_ & -> & _). rewrite lookup_insert_ne by lia. reflexivity. }
  destruct (swap_spec jt this c w1)
    as (t2 & c2 & w2 & -> & (Ao & Ai & Av) & (Bo & Bi & Bv) & Hh2 & _
        & (es2 & Htr2 & (_ & Hdel2 & _)) & As & Bs).
  assert (Ht2 : holds w2 t2 T v) by (apply (holds_transfer w1 w2 c); assumption).
  assert (Hc2 : holds w2 c2 T0 v0) by (apply (holds_transfer w1 w2 this); assumption).
  destruct (function_destroy_spec c2 w2 T0 v0 Hc2) as (c3 & w3 & -> & _ & _ & _ & Hd).
  exists t2, w3. split; [reflexivity|].
  assert (Hcount : exists es1, trace w1 = trace w ++ es1 /\ count is_delete es1 = 0%nat).
  { destruct (_In_place_callable T).
    - destruct Hmode as (_ & _ & ->). eexists. split; reflexivity.
    - destruct Hmode as (_ & _ & _ & ->). eexists. split; reflexivity. }
  destruct Hcount as (es1 & Htr1 & Hdel1).
  destruct (_In_place_callable T0) eqn:HT0.
  - destruct Hd as (Hh3 & Htr3). splits.
    + apply (holds_frame w2); [assumption|]. intros _ p _. rewrite Hh3. reflexivity.
    + discriminate.
    + exists (es1 ++ es2 ++ [EvDtor v0]). split.
      * rewrite Htr3, Htr2, Htr1, <- !app_assoc. reflexivity.
      * rewrite !count_app, Hdel1, Hdel2. reflexivity.
  - destruct Hd as (p0 & Hp0 & Hl0 & Hh3 & Htr3).
    rewrite (Bs T0 (proj1 Ht) HT0) in Hp0.
    assert (Hp0w : heap w !! p0 = Some v0).
    { destruct (holds_large _ _ _ _ Ht HT0) as (p' & Hp' & Hl).
      assert (p' = p0) as -> by congruence. assumption. }
    splits.
    + apply (holds_frame w2); [assumption|]. intros HT p Hp.
      rewrite Hh3. apply lookup_delete_ne.
      rewrite (As T (proj1 Hcv) HT) in Hp.
      rewrite HT in Hmode. destruct Hmode as (Hq & _).
      assert (p = next w) as -> by congruence.
      apply Hwf in Hp0w. lia.
    + intros _. exists p0. split; [assumption|]. rewrite Hh3. apply lookup_delete_eq.
    + exists (es1 ++ es2 ++ [EvDtor v0; EvDelete p0]). split.
      * rewrite Htr3, Htr2, Htr1, <- !app_assoc. reflexivity.
      * rewrite !count_app, Hdel1, Hdel2. reflexivity.
Qed.

(** Assigning to or from an empty container. *)
Lemma assign_copy_from_empty jp jt this st i w T0 v0 :
  holds w this T0 v0 ->
  exists this' w',
    assign_copy jp jt this
      {| any_callable_ := {| storage := st; operations := None |}; invoker_ := i |} w
    = Returned tt this' w' /\
    operations (any_callable_ this') = None /\ invoker_ this' = None.
Proof.
  intros Ht. unfold assign_copy, assign_body. rewrite function_copy_empty.
  destruct (swap_spec jt this (function_default jp) w)
    as (t2 & c2 & w2 & -> & (Ao & Ai & Av) & (Bo & Bi & Bv) & _).
  assert (Hc2 : holds w2 c2 T0 v0) by (apply (holds_transfer w w2 this); assumption).
  destruct (function_destroy_spec c2 w2 T0 v0 Hc2) as (c3 & w3 & -> & _).
  exists t2, w3. splits; [reflexivity | assumption | assumption].
Qed.

Lemma assign_copy_self_empty jp jt st w :
  let e := {| any_callable_ := {| storage := st; operations := None |};
              invoker_ := None |} in
  assign_copy jp jt e e w = Returned tt e w.
Proof. reflexivity. Qed.

(** C9. Self-assignment [x = x] is safe.  For a non-empty [x] (whose
    occupant's copy constructor does not throw) the assignment returns and
    [x] is again non-empty and holds the value it held, so that every
    invocation gives the result it gave before; an empty [x] stays empty,
    with its storage and the world unchanged.  The operand is copied into the
    by-value parameter before the swap: when that copy throws, [x] is not
    touched at all. *)
Theorem self_assignment_safe jp jt x w T v
    (H : holds w x T v) (Hwf : wf_world w) :
  (copy_throws T v = None ->
     exists x' w',
       assign_copy jp jt x x w = Returned tt x' w' /\
       holds w' x' T v /\
       operator_bool x' = operator_bool x /\
       forall args,
         outcome (operator_call x' args w') = outcome (operator_call x args w)) /\
  (forall code, copy_throws T v = Some code ->
     exists w', assign_copy jp jt x x w = Threw (thrown code) x w' /\ heap w' = heap w) /\
  (forall st i w0,
     let e := {| any_callable_ := {| storage := st; operations := None |};
                 invoker_ := i |} in
     assign_copy jp jt e e w0 = Returned tt (set_invoker None e) w0 /\
     operator_bool (set_invoker None e) = operator_bool e).
Proof.
  splits.
  - intros Hc.
    destruct (assign_copy_spec jp jt x x w T v T v H Hc Hwf H)
      as (x' & w' & E & Hx' & _).
    exists x', w'. splits; try assumption.
    + unfold operator_bool. destruct H as (-> & _), Hx' as (-> & _). reflexivity.
    + intros args. rewrite (call_outcome _ _ _ _ args Hx').
      rewrite (call_outcome _ _ _ _ args H). reflexivity.
  - intros code Hc.
    destruct (assign_copy_failure jp jt x x w T v code H Hc) as (w' & E & Hh & _).
    exists w'. split; assumption.
  - intros st i w0. split; reflexivity.
Qed.

(** ** Moved-from containers *)

(** C10. A move does not clear the storage of its source: after a move of a
    boxed occupant the source's storage is word for word what it was, so its
    first word is still the pointer to the block the destination now owns.
    The move nulled the source's operations pointer, and every later
    operation on the source — emptiness test, invocation, copy, move, swap,
    destruction — takes the branch for an empty container: none of them
    depends on the storage words, whatever they are, and the destruction of
    the source releases nothing, before as well as after the destination
    released the block (which happens once), although a [delete] on the
    stale pointer would then be a double release. *)
Theorem moved_from_storage_is_never_read junk src w T v
    (H : holds w src T v) (HT : _In_place_callable T = false) :
  exists dst src' p,
    function_move junk src w = Returned tt (dst, src') w /\
    storage (any_callable_ src') = storage (any_callable_ src) /\
    Large.get_ptr (any_callable_ src') = Z.pos p /\
    Large.get_ptr (any_callable_ dst) = Z.pos p /\
    heap w !! p = Some v /\
    operations (any_callable_ src') = None /\
    operator_bool src' = false /\
    (forall args, operator_call src' args w = Threw bad_function_call src' w) /\
    (forall j, function_copy j src' w = Returned tt (function_default j) w) /\
    (forall j, function_move j src' w = Returned tt (function_default j, src') w) /\
    function_destroy src' w = Returned tt src' w /\
    (forall j g, exists s' g' w',
        swap j src' g w = Returned tt (s', g') w' /\
        operations (any_callable_ g') = None /\
        operations (any_callable_ s') = operations (any_callable_ g) /\
        occupant w' (any_callable_ s') = occupant w (any_callable_ g) /\
        heap w' = heap w) /\
    (exists dst' w' ds,
        function_destroy dst w = Returned tt dst' w' /\
        heap w' = delete p (heap w) /\
        trace w' = trace w ++ ds /\ count is_delete ds = 1%nat /\
        function_destroy src' w' = Returned tt src' w' /\
        Large.destroy (any_callable_ src') w' = Undefined) /\
    (forall st i args w0,
        let e := {| any_callable_ := {| storage := st; operations := None |};
                    invoker_ := i |} in
        operator_bool e = false /\
        operator_call e args w0 = Threw bad_function_call e w0 /\
        function_copy junk e w0 = Returned tt (function_default junk) w0 /\
        function_move junk e w0 = Returned tt (function_default junk, e) w0 /\
        function_destroy e w0 = Returned tt e w0).
Proof.
  destruct (function_move_spec junk src w T v H)
    as (dst & src' & w' & E & Hd & Ho & Hi & _ & _ & _ & Hbox).
  destruct (Hbox HT) as (Hds & Hss & ->).
  destruct (holds_large _ _ _ _ H HT) as (p & Hp & Hl).
  assert (Hempty : exists st, src' =
            {| any_callable_ := {| storage := st; operations := None |};
               invoker_ := None |}).
  { destruct src' as [[st o] i]. simpl in *. subst. eexists. reflexivity. }
  destruct Hempty as (st & Hs).
  exists dst, src', p. unfold Large.get_ptr.
  splits; try assumption; try (rewrite Hs; reflexivity).
  - congruence.
  - congruence.
  - intros j g.
    destruct (swap_spec j src' g w)
      as (s' & g' & w' & E' & (Ao & _ & Av) & (Bo & _) & Hh & _).
    exists s', g', w'. splits; try assumption. congruence.
  - destruct (function_destroy_spec dst w T v Hd) as (d' & w' & E' & _ & _ & _ & Hmode).
    rewrite HT in Hmode. destruct Hmode as (p' & Hp' & _ & Hh & Htr).
    assert (p' = p) as -> by congruence.
    exists d', w', [EvDtor v; EvDelete p]. splits; try assumption; try reflexivity.
    + rewrite Hs. reflexivity.
    + unfold Large.destroy, Large.get_ptr. rewrite Hss, Hp, Hh, lookup_delete_eq.
      reflexivity.
  - intros st' i args w0. splits; reflexivity.
Qed.

(** ** Assignment from a raw callable *)

(** [unset] nulls the operations pointer and leaves the invoker pointer
    as it was. *)
Lemma unset_keeps_invoker f w T v :
  holds w f T v ->
  exists f' w',
    unset f w = Returned tt f' w' /\
    operations (any_callable_ f') = None /\
    invoker_ f' = Some (manager_invoke T).
Proof.
  intros (Ho & Hi & Hv). unfold unset. rewrite Ho.
  destruct (destroy_spec T (any_callable_ f) w v Ho Hv) as (w' & -> & _).
  eexists _, _. splits; [reflexivity | reflexivity | assumption].
Qed.

(** A raw-callable assignment whose construction throws: the former
    occupant has already been destroyed. *)
Lemma assign_callable_failure T' v' cat code f w T v :
  holds w f T v -> construct T' cat v' = inl code ->
  exists f' w',
    assign_callable T' cat v' f w = Threw (thrown code) f' w' /\
    operations (any_callable_ f') = None /\
    invoker_ f' = Some (manager_invoke T).
Proof.
  intros H Hc. pose proof H as (Ho & _).
  unfold assign_callable, operator_bool. rewrite Ho.
  destruct (unset_keeps_invoker f w T v H) as (f1 & w1 & -> & Ho1 & Hi1).
  unfold set, manager_store, InPlace.store, Large.store. rewrite Hc.
  destruct (_In_place_callable T'); eexists _, _;
    (split; [reflexivity|]); split; simpl; try assumption;
    destruct f1 as [[s o] i]; simpl in *; assumption.
Qed.

(** C4, at the failing input.  A container holds a 32-byte closure and
    returns 13 for the argument 3.  Assigning to it a raw callable whose
    copy constructor throws leaves through the exception with the container
    empty: its former occupant is destroyed, its block released, and
    invoking it now fails. *)
Theorem raw_assignment_failure_loses_target :
  holds (snd demo_large) (fst demo_large) large_lambda [10; 11; 12; 13] /\
  outcome (operator_call (fst demo_large) 3 (snd demo_large)) = Some (inl 13) /\
  exists f' w',
    assign_callable throwing_copy lvalue [5] (fst demo_large) (snd demo_large)
      = Threw (thrown 7) f' w' /\
    operator_bool f' = false /\
    occupant w' (any_callable_ f') = None /\
    heap w' = ∅ /\
    count is_delete (trace w') = 1%nat /\
    operator_call f' 3 w' = Threw bad_function_call f' w'.
Proof.
  splits; [repeat split | reflexivity |].
  eexists _, _. splits; reflexivity.
Qed.

(** C7, at the failing input.  The same failed assignment leaves the
    container with a null Dispatch Table reference and a non-null Invoker
    reference. *)
Theorem raw_assignment_failure_breaks_reference_invariant :
  references_agree (fst demo_large) /\
  exists f' w',
    assign_callable throwing_copy lvalue [5] (fst demo_large) (snd demo_large)
      = Threw (thrown 7) f' w' /\
    operations (any_callable_ f') = None /\
    invoker_ f' = Some (manager_invoke large_lambda) /\
    ~ references_agree f'.
Proof.
  split; [split; discriminate|].
  eexists _, _. splits; try reflexivity.
  intros [Hn _]. specialize (Hn eq_refl). discriminate.
Qed.

(** ** The reference invariant under operations that complete *)

Ltac case_bash :=
  repeat match goal with
         | |- context [match ?x with _ => _ end] => destruct x eqn:?
         | |- context [if ?b then _ else _] => destruct b eqn:?
         end.

Lemma references_agree_default junk : references_agree (function_default junk).
Proof. split; reflexivity. Qed.

Lemma set_agree T cat v f w f' w' :
  set T cat v f w = Returned tt f' w' -> references_agree f'.
Proof.
  unfold set. destruct (manager_store T cat v (any_callable_ f) w); try discriminate.
  intros [= <- _]. split; discriminate.
Qed.

Lemma function_from_callable_agree junk T cat v w f w' :
  function_from_callable junk T cat v w = Returned tt f w' -> references_agree f.
Proof. apply set_agree. Qed.

Lemma templated_copy_operations T dst src w dst' w' :
  templated_copy T dst src w = Returned tt dst' w' ->
  operations dst' = operations src.
Proof.
  unfold templated_copy, InPlace.store, Large.store.
  case_bash; try discriminate; intros [= <- _]; reflexivity.
Qed.

Lemma function_copy_agree junk x w c w' :
  references_agree x -> function_copy junk x w = Returned tt c w' ->
  references_agree c.
Proof.
  intros Hx. unfold function_copy.
  destruct (operations (any_callable_ x)) as [T|] eqn:Ho.
  - simpl. destruct (templated_copy T _ _ w) as [[] d w1| |] eqn:E; try discriminate.
    intros [= <- _]. apply templated_copy_operations in E.
    unfold references_agree in *. simpl. rewrite E, Ho. rewrite Ho in Hx. assumption.
  - intros [= <- _]. apply references_agree_default.
Qed.

Lemma function_move_agree junk x w dst x' w' :
  references_agree x -> function_move junk x w = Returned tt (dst, x') w' ->
  references_agree dst /\ references_agree x'.
Proof.
  intros Hx. unfold function_move.
  destruct (operations (any_callable_ x)) as [T|] eqn:Ho.
  - destruct (move_spec T (any_callable_ (function_default junk)) (any_callable_ x) w)
      as (d & s & w1 & -> & Hd & Hs & _).
    intros [= <- <- _]. unfold references_agree in *. simpl.
    rewrite Hd, Hs. split; [assumption | tauto].
  - intros [= <- <- _]. split; [apply references_agree_default | assumption].
Qed.

Lemma operator_call_agree w f T v args f' w' :
  holds w f T v -> after (operator_call f args w) = Some (f', w') ->
  operations (any_callable_ f') = operations (any_callable_ f) /\
  invoker_ f' = invoker_ f /\
  references_agree f'.
Proof.
  intros H Ha.
  assert (Hkeep : operations (any_callable_ f') = operations (any_callable_ f) /\
                  invoker_ f' = invoker_ f).
  { destruct (_In_place_callable T) eqn:HT.
    - rewrite (call_in_place _ _ _ _ args H HT) in Ha.
      destruct (fst (call_operator T v args)); injection Ha as <- _; split; reflexivity.
    - destruct (call_large _ _ _ _ args H HT) as (p & _ & _ & E). rewrite E in Ha.
      destruct (fst (call_operator T v args)); injection Ha as <- _; split; reflexivity. }
  destruct Hkeep as (Eo & Ei), H as (Ho & Hi & _). splits; try assumption.
  unfold references_agree. rewrite Eo, Ei, Ho, Hi. split; discriminate.
Qed.

Lemma assign_copy_agree jp jt this y w this' w' :
  references_agree y -> assign_copy jp jt this y w = Returned tt this' w' ->
  references_agree this'.
Proof.
  intros Hy. unfold assign_copy, assign_body.
  destruct (function_copy jp y w) as [[] c w1| |] eqn:Ec; try discriminate.
  pose proof (function_copy_agree jp y w c w1 Hy Ec) as Hc.
  destruct (swap_spec jt this c w1) as (t2 & c2 & w2 & -> & (Ao & Ai & _) & _).
  destruct (function_destroy c2 w2) as [[] c3 w3| |]; try discriminate.
  intros [= <- _]. apply (references_agree_transfer c); assumption.
Qed.


(** ** The theorems at the containers of the demonstration program *)

Lemma copy_construction_independent_witness :
  holds (snd demo_large_counter) (fst demo_large_counter) large_counter [5; 0; 0; 0] /\
  copy_throws large_counter [5; 0; 0; 0] = None /\
  wf_world (snd demo_large_counter) /\
  exists c w',
    function_copy junk1 (fst demo_large_counter) (snd demo_large_counter)
      = Returned tt c w' /\
    holds w' c large_counter [5; 0; 0; 0] /\
    holds w' (fst demo_large_counter) large_counter [5; 0; 0; 0].
Proof.
  destruct (built_from_callable large_counter rvalue [5; 0; 0; 0]) as [Hh Hwf];
    [reflexivity | reflexivity |].
  splits; [exact Hh | reflexivity | exact Hwf |].
  destruct (copy_construction_independent junk1 (fst demo_large_counter)
              (snd demo_large_counter) large_counter [5; 0; 0; 0] Hh eq_refl Hwf)
    as (c & w' & E & Hc & Hx & _).
  exists c, w'. splits; assumption.
Defined.

Lemma storage_mode_allocation_witness :
  constructible large_lambda lvalue [10; 11; 12; 13] /\
  wf_world empty_world /\
  exists f w' es,
    function_from_callable junk0 large_lambda lvalue [10; 11; 12; 13] empty_world
      = Returned tt f w' /\
    trace w' = trace empty_world ++ es /\
    count is_new es = 1%nat.
Proof.
  splits; [reflexivity | exact wf_world_empty |].
  destruct (storage_mode_allocation junk0 large_lambda lvalue [10; 11; 12; 13]
              empty_world eq_refl wf_world_empty) as [_ Hlarge].
  destruct (Hlarge eq_refl) as (f & w' & es & E & Htr & Hnew & _).
  exists f, w', es. splits; assumption.
Defined.

Lemma inline_qualification_witness :
  constructible add_two rvalue [0] /\
  (_In_place_callable add_two = true <->
     fits_in_storage add_two /\ alignment_compatible add_two /\ relocatable add_two).
Proof.
  split; [reflexivity|].
  apply (inline_qualification junk0 add_two rvalue [0] empty_world). reflexivity.
Defined.

Lemma self_assignment_safe_witness :
  holds (snd demo_large) (fst demo_large) large_lambda [10; 11; 12; 13] /\
  wf_world (snd demo_large) /\
  copy_throws large_lambda [10; 11; 12; 13] = None /\
  exists x' w',
    assign_copy junk1 junk0 (fst demo_large) (fst demo_large) (snd demo_large)
      = Returned tt x' w' /\
    holds w' x' large_lambda [10; 11; 12; 13].
Proof.
  destruct (built_from_callable large_lambda lvalue [10; 11; 12; 13]) as [Hh Hwf];
    [reflexivity | reflexivity |].
  splits; [exact Hh | exact Hwf | reflexivity |].
  destruct (self_assignment_safe junk1 junk0 (fst demo_large) (snd demo_large)
              large_lambda [10; 11; 12; 13] Hh Hwf) as [Hok _].
  destruct (Hok eq_refl) as (x' & w' & E & Hx & _).
  exists x', w'. split; assumption.
Defined.

Lemma moved_from_storage_is_never_read_witness :
  holds (snd demo_large) (fst demo_large) large_lambda [10; 11; 12; 13] /\
  _In_place_callable large_lambda = false /\
  exists dst src',
    function_move junk1 (fst demo_large) (snd demo_large)
      = Returned tt (dst, src') (snd demo_large) /\
    storage (any_callable_ src') = storage (any_callable_ (fst demo_large)) /\
    operator_bool src' = false.
Proof.
  assert (Hh : holds (snd demo_large) (fst demo_large) large_lambda [10; 11; 12; 13])
    by (repeat split).
  splits; [exact Hh | reflexivity |].
  destruct (moved_from_storage_is_never_read junk1 (fst demo_large) (snd demo_large)
              large_lambda [10; 11; 12; 13] Hh eq_refl)
    as (dst & src' & p & E & Hs & _ & _ & _ & _ & Hb & _).
  exists dst, src'. splits; assumption.
Defined.

(** ** Scenarios of the specification *)

(** A container built from the closure adding 2: [f(3)] returns 5; after
    [g(std::move(f))], [f] is empty and [g(3)] returns 5. *)
Example scenario_add_two :
  outcome (operator_call (fst demo_small) 3 (snd demo_small)) = Some (inl 5) /\
  exists g f' w',
    function_move junk1 (fst demo_small) (snd demo_small) = Returned tt (g, f') w' /\
    operator_bool f' = false /\
    outcome (operator_call f' 3 w') = Some (inr bad_function_call) /\
    outcome (operator_call g 3 w') = Some (inl 5).
Proof. split; [reflexivity|]. eexists _, _, _. splits; reflexivity. Qed.

(** A container built from a closure above the in-place size: after copying
    it and destroying the original, the copy gives the same result. *)
Example scenario_copy_large :
  exists c w1 f' w2,
    function_copy junk1 (fst demo_large) (snd demo_large) = Returned tt c w1 /\
    function_destroy (fst demo_large) w1 = Returned tt f' w2 /\
    outcome (operator_call c 3 w2)
      = outcome (operator_call (fst demo_large) 3 (snd demo_large)) /\
    outcome (operator_call c 3 w2) = Some (inl 13).
Proof. eexists _, _, _, _. splits; reflexivity. Qed.

(** Two counting closures, one in place and one boxed: a call through the
    copy advances the copy's count and not the original's. *)
Example scenario_counters :
  (exists c w1 c' w2,
      function_copy junk1 (fst demo_small_counter) (snd demo_small_counter)
        = Returned tt c w1 /\
      operator_call c 0 w1 = Returned 5 c' w2 /\
      outcome (operator_call c' 0 w2) = Some (inl 6) /\
      outcome (operator_call (fst demo_small_counter) 0 w2) = Some (inl 5)) /\
  (exists c w1 c' w2,
      function_copy junk1 (fst demo_large_counter) (snd demo_large_counter)
        = Returned tt c w1 /\
      operator_call c 0 w1 = Returned 5 c' w2 /\
      outcome (operator_call c' 0 w2) = Some (inl 6) /\
      outcome (operator_call (fst demo_large_counter) 0 w2) = Some (inl 5)).
Proof. split; eexists _, _, _, _; splits; reflexivity. Qed.

(** An exception thrown by the occupant reaches the caller as it is. *)
Example scenario_failing_call :
  exists f w,
    function_from_callable junk0 failing_call rvalue [0] empty_world = Returned tt f w /\
    outcome (operator_call f 1 w) = Some (inr (thrown 3)).
Proof. eexists _, _. split; reflexivity. Qed.

(** [g = std::move(f)] and [g = f] on the containers of the demonstration;
    [g = callable] with a callable whose constructor completes runs off the
    end of the template [operator=]. *)
Example scenario_assignment :
  (exists g f' w',
      assign_move junk1 junk0 (fst demo_small) (fst demo_large) (snd demo_large)
        = Returned tt (g, f') w' /\
      operator_bool f' = false /\
      outcome (operator_call g 3 w') = Some (inl 13)) /\
  (exists g w',
      assign_copy junk1 junk0 (function_default junk1) (fst demo_large) (snd demo_large)
        = Returned tt g w' /\
      outcome (operator_call g 3 w') = Some (inl 13) /\
      outcome (operator_call (fst demo_large) 3 w') = Some (inl 13)) /\
  assign_callable small_lambda rvalue [4] (fst demo_large) (snd demo_large)
    = Undefined.
Proof.
  splits.
  - eexists _, _, _. splits; reflexivity.
  - eexists _, _. splits; reflexivity.
  - reflexivity.
Qed.

(** * Ownership: what the operations keep *)

(** ** Blocks and validity *)

Lemma block_of_empty f : operations (any_callable_ f) = None -> block_of f = None.
Proof. intros H. unfold block_of. rewrite H. reflexivity. Qed.

Lemma block_of_in_place f T :
  operations (any_callable_ f) = Some T -> _In_place_callable T = true ->
  block_of f = None.
Proof. intros Ho HT. unfold block_of. rewrite Ho, HT. reflexivity. Qed.

Lemma block_of_large f T p :
  operations (any_callable_ f) = Some T -> _In_place_callable T = false ->
  mem1 (storage (any_callable_ f)) = Z.pos p ->
  block_of f = Some p.
Proof.
  intros Ho HT Hp. unfold block_of, Large.get_ptr. rewrite Ho, HT, Hp. reflexivity.
Qed.

Lemma block_of_inv f p :
  block_of f = Some p ->
  exists T, operations (any_callable_ f) = Some T /\ _In_place_callable T = false /\
            mem1 (storage (any_callable_ f)) = Z.pos p.
Proof.
  unfold block_of, Large.get_ptr. intros H.
  destruct (operations (any_callable_ f)) as [T|]; [|discriminate].
  destruct (_In_place_callable T) eqn:HT; [discriminate|].
  destruct (mem1 (storage (any_callable_ f))) as [|q|q]; try discriminate.
  exists T. injection H as ->. repeat split; assumption.
Qed.

(** The block of a container is determined by its table reference and, for
    a boxed type, its storage. *)
Lemma block_of_transfer f g :
  operations (any_callable_ g) = operations (any_callable_ f) ->
  (forall T, operations (any_callable_ f) = Some T -> _In_place_callable T = false ->
     storage (any_callable_ g) = storage (any_callable_ f)) ->
  block_of g = block_of f.
Proof.
  intros Ho Hs. unfold block_of, Large.get_ptr. rewrite Ho.
  destruct (operations (any_callable_ f)) as [T|] eqn:E; [|reflexivity].
  destruct (_In_place_callable T) eqn:HT; [reflexivity|].
  rewrite (Hs T eq_refl HT). reflexivity.
Qed.

Lemma holds_block w f T v :
  holds w f T v ->
  if _In_place_callable T then block_of f = None
  else exists p, block_of f = Some p /\ heap w !! p = Some v.
Proof.
  intros H. destruct (_In_place_callable T) eqn:HT.
  - apply (block_of_in_place f T); [apply H | assumption].
  - destruct (holds_large _ _ _ _ H HT) as (p & Hp & Hl).
    exists p. split; [|assumption]. apply (block_of_large f T); [apply H | assumption ..].
Qed.

Lemma valid_block w f p :
  valid w f -> block_of f = Some p -> is_Some (heap w !! p).
Proof.
  intros Hv Hb. destruct (block_of_inv f p Hb) as (T & Ho & HT & Hp).
  destruct (Hv T Ho) as (v & Hh).
  destruct (holds_large _ _ _ _ Hh HT) as (q & Hq & Hl).
  assert (q = p) as -> by congruence. eauto.
Qed.

Lemma valid_empty w f : operations (any_callable_ f) = None -> valid w f.
Proof. intros H T Ho. congruence. Qed.

Lemma valid_holds w f T v : holds w f T v -> valid w f.
Proof.
  intros H T' Ho. assert (T' = T) as ->.
  { destruct H as (Ho' & _). congruence. }
  eauto.
Qed.

(** Validity only depends on the block the container owns. *)
Lemma valid_frame w w' f :
  valid w f ->
  (forall p, block_of f = Some p -> heap w' !! p = heap w !! p) ->
  valid w' f.
Proof.
  intros Hv Hf T Ho. destruct (Hv T Ho) as (v & Hh). exists v.
  apply (holds_frame w); [assumption|]. intros HT p Hp.
  apply Hf. apply (block_of_large f T); assumption.
Qed.

Lemma valid_frame_all w w' fs :
  Forall (valid w) fs ->
  (forall p, p ∈ blocks fs -> heap w' !! p = heap w !! p) ->
  Forall (valid w') fs.
Proof.
  intros Hv Hf. rewrite Forall_forall in *. intros f Hin.
  apply (valid_frame w); [apply Hv; assumption|].
  intros p Hb. apply Hf. unfold blocks. apply list_elem_of_omap. eauto.
Qed.

(** ** Consistent configurations *)

Lemma consistent_nil : consistent empty_world [].
Proof.
  split; [apply wf_world_empty|]. split; [constructor|]. split; [constructor|].
  intros p. simpl. rewrite lookup_empty. split.
  - intros H. inversion H.
  - intros [v H]. discriminate.
Qed.

Lemma consistent_perm w fs fs' : fs ≡ₚ fs' -> consistent w fs -> consistent w fs'.
Proof.
  intros Hp (Hwf & Hv & Hnd & Hex).
  assert (Hb : blocks fs ≡ₚ blocks fs') by (unfold blocks; rewrite Hp; reflexivity).
  split; [assumption|]. split; [rewrite <- Hp; assumption|].
  split; [rewrite <- Hb; assumption|].
  intros p. rewrite <- Hb. apply Hex.
Qed.

(** Containers replaced by containers owning the same blocks, the heap
    being what it was. *)
Lemma consistent_replace w w' hs hs' rest :
  consistent w (hs ++ rest) ->
  heap w' = heap w -> next w' = next w ->
  Forall (valid w') hs' -> blocks hs' ≡ₚ blocks hs ->
  consistent w' (hs' ++ rest).
Proof.
  intros (Hwf & Hv & Hnd & Hex) Hh Hn Hv' Hb.
  assert (Hbs : blocks (hs' ++ rest) ≡ₚ blocks (hs ++ rest)).
  { unfold blocks in *. rewrite !omap_app, Hb. reflexivity. }
  split; [|split; [|split]].
  - intros p v. rewrite Hh, Hn. apply Hwf.
  - apply Forall_app. split; [assumption|].
    apply Forall_app in Hv as [_ Hv].
    apply (valid_frame_all w); [assumption|]. intros p _. rewrite Hh. reflexivity.
  - rewrite Hbs. assumption.
  - intros p. rewrite Hbs, Hh. apply Hex.
Qed.

Lemma consistent_same_heap w w' fs :
  consistent w fs -> heap w' = heap w -> next w' = next w -> consistent w' fs.
Proof.
  intros Hc Hh Hn.
  apply (consistent_replace w w' [] [] fs); auto.
Qed.

(** A container that owns no block can join or leave. *)
Lemma consistent_cons_free w f fs :
  block_of f = None -> valid w f -> consistent w fs -> consistent w (f :: fs).
Proof.
  intros Hb Hv (Hwf & Hvs & Hnd & Hex).
  assert (Hbs : blocks (f :: fs) = blocks fs) by (unfold blocks; simpl; rewrite Hb; reflexivity).
  split; [assumption|]. split; [constructor; assumption|].
  rewrite Hbs. split; assumption.
Qed.

Lemma consistent_drop_free w f fs :
  block_of f = None -> consistent w (f :: fs) -> consistent w fs.
Proof.
  intros Hb (Hwf & Hvs & Hnd & Hex).
  assert (Hbs : blocks (f :: fs) = blocks fs) by (unfold blocks; simpl; rewrite Hb; reflexivity).
  rewrite Hbs in *. inversion Hvs; subst.
  split; [assumption|]. split; [assumption|]. split; assumption.
Qed.

(** A container owning the block just allocated at the frontier joins. *)
Lemma consistent_alloc w w' f fs v :
  consistent w fs ->
  heap w' = <[next w := v]> (heap w) -> next w' = Pos.succ (next w) ->
  valid w' f -> block_of f = Some (next w) ->
  consistent w' (f :: fs).
Proof.
  intros (Hwf & Hvs & Hnd & Hex) Hh Hn Hv Hb.
  assert (Hfresh : next w ∉ blocks fs).
  { intros Hin. apply Hex in Hin as [u Hu]. apply Hwf in Hu. lia. }
  assert (Hbs : blocks (f :: fs) = next w :: blocks fs)
    by (unfold blocks; simpl; rewrite Hb; reflexivity).
  split; [|split; [|split]].
  - intros p u. rewrite Hh, Hn, lookup_insert. case_decide.
    + intros _. subst. lia.
    + intros E. apply Hwf in E. lia.
  - constructor; [assumption|].
    apply (valid_frame_all w); [assumption|]. intros p Hin.
    rewrite Hh. apply lookup_insert_ne. intros <-. contradiction.
  - rewrite Hbs. apply NoDup_cons. split; assumption.
  - intros p. rewrite Hbs, Hh, elem_of_cons, lookup_insert. case_decide.
    + subst. split; [eauto | intros _; left; reflexivity].
    + rewrite Hex. split; [intros [?|?]; [congruence | assumption] | intros ?; right; assumption].
Qed.

(** The container owning a block leaves as the block is released. *)
Lemma consistent_release w w' f fs p :
  consistent w (f :: fs) -> block_of f = Some p ->
  heap w' = delete p (heap w) -> next w' = next w ->
  consistent w' fs.
Proof.
  intros (Hwf & Hvs & Hnd & Hex) Hb Hh Hn.
  assert (Hbs : blocks (f :: fs) = p :: blocks fs)
    by (unfold blocks; simpl; rewrite Hb; reflexivity).
  rewrite Hbs in *. apply NoDup_cons in Hnd as [Hnin Hnd]. inversion Hvs; subst.
  split; [|split; [|split]].
  - intros q u. rewrite Hh, Hn, lookup_delete. case_decide; [discriminate|]. apply Hwf.
  - apply (valid_frame_all w); [assumption|]. intros q Hin.
    rewrite Hh. apply lookup_delete_ne. intros <-. contradiction.
  - assumption.
  - intros q. rewrite Hh, lookup_delete. case_decide.
    + subst. split; [contradiction | intros [u Hu]; discriminate].
    + rewrite <- Hex, elem_of_cons. split; [auto | intros [?|?]; [congruence | assumption]].
Qed.

(** The occupant of a boxed container is overwritten in its block. *)
Lemma consistent_update w w' f f' fs p v :
  consistent w (f :: fs) -> block_of f = Some p ->
  heap w' = <[p := v]> (heap w) -> next w' = next w ->
  valid w' f' -> block_of f' = Some p ->
  consistent w' (f' :: fs).
Proof.
  intros (Hwf & Hvs & Hnd & Hex) Hb Hh Hn Hv' Hb'.
  assert (Hbs : blocks (f :: fs) = p :: blocks fs)
    by (unfold blocks; simpl; rewrite Hb; reflexivity).
  assert (Hbs' : blocks (f' :: fs) = p :: blocks fs)
    by (unfold blocks; simpl; rewrite Hb'; reflexivity).
  rewrite Hbs in *. unfold consistent. rewrite Hbs'.
  pose proof Hnd as Hnd'. apply NoDup_cons in Hnd' as [Hnin _]. inversion Hvs; subst.
  assert (Hlive : is_Some (heap w !! p)) by (apply Hex; left).
  split; [|split; [|split]].
  - intros q u. rewrite Hh, Hn, lookup_insert. case_decide.
    + intros _. subst. destruct Hlive as [u' Hu']. apply Hwf in Hu'. assumption.
    + apply Hwf.
  - constructor; [assumption|].
    apply (valid_frame_all w); [assumption|]. intros q Hin.
    rewrite Hh. apply lookup_insert_ne. intros <-. contradiction.
  - assumption.
  - intros q. rewrite Hh, lookup_insert. case_decide.
    + subst. split; [eauto | intros _; left].
    + apply Hex.
Qed.

(** ** Blocks an operation leaves alone *)

Lemma untouched_same w w' fs : heap w' = heap w -> untouched w w' fs.
Proof. intros H p _. rewrite H. reflexivity. Qed.

Lemma untouched_trans w1 w2 w3 fs :
  untouched w1 w2 fs -> untouched w2 w3 fs -> untouched w1 w3 fs.
Proof. intros H1 H2 p Hp. rewrite (H2 p Hp). apply H1. assumption. Qed.

Lemma untouched_tail w w' f fs : untouched w w' (f :: fs) -> untouched w w' fs.
Proof.
  intros H p Hp. apply H. unfold blocks in *. simpl.
  destruct (block_of f); [right|]; assumption.
Qed.

Lemma untouched_cons w w' f fs :
  (forall p, block_of f = Some p -> heap w' !! p = heap w !! p) ->
  untouched w w' fs -> untouched w w' (f :: fs).
Proof.
  intros Hf H p Hp. unfold blocks in Hp. simpl in Hp.
  destruct (block_of f) as [q|] eqn:E.
  - apply elem_of_cons in Hp as [->|Hp]; [apply Hf; reflexivity | apply H; assumption].
  - apply H. assumption.
Qed.

Lemma untouched_alloc w w' fs v :
  consistent w fs -> heap w' = <[next w := v]> (heap w) -> untouched w w' fs.
Proof.
  intros (Hwf & _ & _ & Hex) Hh p Hp. rewrite Hh.
  apply lookup_insert_ne. intros <-.
  apply Hex in Hp as [u Hu]. apply Hwf in Hu. lia.
Qed.

Lemma untouched_other w w' f fs p :
  consistent w (f :: fs) -> block_of f = Some p ->
  (forall q, q <> p -> heap w' !! q = heap w !! q) ->
  untouched w w' fs.
Proof.
  intros (_ & _ & Hnd & _) Hb Hh q Hq. apply Hh. intros ->.
  unfold blocks in Hnd. simpl in Hnd. rewrite Hb in Hnd.
  apply NoDup_cons in Hnd as [Hnin _]. contradiction.
Qed.

(** Containers whose blocks are untouched keep their occupants. *)
Lemma untouched_occupant w w' fs g :
  untouched w w' fs -> g ∈ fs ->
  occupant w' (any_callable_ g) = occupant w (any_callable_ g).
Proof.
  intros H Hin. apply occupant_frame. intros T p Ho HT Hp.
  apply H. unfold blocks. apply list_elem_of_omap. exists g. split; [assumption|].
  apply (block_of_large g T); assumption.
Qed.

(** ** The private operations [set] and [unset] *)

Lemma set_keeps T cat v f w rest :
  operations (any_callable_ f) = None -> consistent w (f :: rest) ->
  exists f' w',
    consistent w' (f' :: rest) /\ untouched w w' rest /\
    match construct T cat v with
    | inl code =>
        set T cat v f w = Threw (thrown code) f' w' /\
        operations (any_callable_ f') = None /\
        invoker_ f' = invoker_ f /\ heap w' = heap w
    | inr _ =>
        set T cat v f w = Returned tt f' w' /\
        operations (any_callable_ f') = Some T /\
        invoker_ f' = Some (manager_invoke T) /\
        (List.length v = words_of T -> holds w' f' T v) /\
        exists es, trace w' = trace w ++ es /\ count is_delete es = 0%nat /\
                   count is_new es = (if _In_place_callable T then 0 else 1)%nat
    end.
Proof.
  intros Ho Hc. pose proof (block_of_empty f Ho) as Hb.
  unfold set, manager_store.
  destruct (construct T cat v) as [code|[obj s]] eqn:Hk.
  - (* the constructor throws *)
    destruct (_In_place_callable T) eqn:HT;
      unfold InPlace.store, Large.store; rewrite Hk;
      eexists _, _; (split; [|split; [|split; [reflexivity|]]]).
    + apply (consistent_replace w w [f] [_] rest); try reflexivity; try assumption.
      constructor; [|constructor]. apply valid_empty. assumption.
    + apply untouched_same. reflexivity.
    + splits; try reflexivity. assumption.
    + apply (consistent_replace w _ [f] [_] rest); try reflexivity; try assumption.
      constructor; [|constructor]. apply valid_empty. assumption.
    + apply untouched_same. reflexivity.
    + splits; try reflexivity. assumption.
  - (* the constructor completes *)
    assert (obj = v) as -> by (eapply construct_value; eassumption).
    destruct (_In_place_callable T) eqn:HT;
      unfold InPlace.store, Large.store; rewrite Hk.
    + set (f' := set_invoker _ _).
      assert (Hh : forall u, InPlace.get_ref T (any_callable_ f') = u -> holds (log [ctor_event cat v] w) f' T u).
      { intros u Hu. repeat split. unfold occupant. simpl. rewrite HT, <- Hu. reflexivity. }
      exists f', (log [ctor_event cat v] w). splits; try reflexivity.
      * apply (consistent_replace w _ [f] [f'] rest); try reflexivity; try assumption.
        -- constructor; [|constructor]. eapply valid_holds. apply Hh. reflexivity.
        -- unfold blocks. simpl. rewrite Hb.
           rewrite (block_of_in_place f' T) by (reflexivity || assumption). reflexivity.
      * apply untouched_same. reflexivity.
      * intros Hlen. apply Hh. unfold InPlace.get_ref. simpl.
        apply read_write_fits; auto using in_place_words.
      * eexists. split; [reflexivity|]. destruct cat; split; reflexivity.
    + set (f' := set_invoker _ _). set (w' := Build_world _ _ _).
      assert (Hh : holds w' f' T v).
      { repeat split. unfold occupant. simpl. rewrite HT.
        unfold Large.get_ref, Large.get_ptr. simpl. rewrite lookup_insert_eq. reflexivity. }
      pose proof (consistent_drop_free w f rest Hb Hc) as Hc'.
      exists f', w'. splits; try reflexivity.
      * apply (consistent_alloc w w' f' rest v); try reflexivity; try assumption.
        -- eapply valid_holds. eassumption.
        -- apply (block_of_large f' T); reflexivity || assumption.
      * apply (untouched_alloc w w' rest v); [assumption | reflexivity].
      * intros _. assumption.
      * eexists. split; [reflexivity|]. destruct cat; split; reflexivity.
Qed.

Lemma unset_keeps f w rest T :
  operations (any_callable_ f) = Some T -> consistent w (f :: rest) ->
  exists f' w',
    unset f w = Returned tt f' w' /\
    operations (any_callable_ f') = None /\
    invoker_ f' = invoker_ f /\
    storage (any_callable_ f') = storage (any_callable_ f) /\
    consistent w' (f' :: rest) /\ untouched w w' rest /\
    exists es, trace w' = trace w ++ es /\ count is_new es = 0%nat /\
               count is_copy es = 0%nat /\
               count is_delete es = (if _In_place_callable T then 0 else 1)%nat.
Proof.
  intros Ho Hc.
  assert (Hv : valid w f).
  { destruct Hc as (_ & Hv & _). inversion Hv; assumption. }
  destruct (Hv T Ho) as (v & Hh). pose proof Hh as (_ & _ & Hocc).
  unfold unset. rewrite Ho.
  destruct (destroy_spec T (any_callable_ f) w v Ho Hocc) as (w' & -> & Hn & Hmode).
  set (f' := set_any _ f).
  assert (Hb' : block_of f' = None) by (apply block_of_empty; reflexivity).
  exists f', w'. splits; try reflexivity.
  - pose proof (holds_block w f T v Hh) as Hb.
    destruct (_In_place_callable T) eqn:HT.
    + destruct Hmode as (Hh' & _).
      apply (consistent_replace w w' [f] [f'] rest); try assumption.
      * constructor; [|constructor]. apply valid_empty. reflexivity.
      * unfold blocks. simpl. rewrite Hb. reflexivity.
    + destruct Hmode as (p & Hp & _ & Hh' & _). destruct Hb as (q & Hq & _).
      assert (q = p) as ->.
      { destruct (block_of_inv f q Hq) as (_ & _ & _ & E). congruence. }
      apply consistent_cons_free; [assumption | apply valid_empty; reflexivity |].
      apply (consistent_release w w' f rest p); assumption.
  - pose proof (holds_block w f T v Hh) as Hb.
    destruct (_In_place_callable T) eqn:HT.
    + destruct Hmode as (Hh' & _). apply untouched_same. assumption.
    + destruct Hmode as (p & Hp & _ & Hh' & _). destruct Hb as (q & Hq & _).
      assert (q = p) as ->.
      { destruct (block_of_inv f q Hq) as (_ & _ & _ & E). congruence. }
      apply (untouched_other w w' f rest p); try assumption.
      intros q Hne. rewrite Hh'. apply lookup_delete_ne. congruence.
  - destruct (_In_place_callable T).
    + destruct Hmode as (_ & ->). eexists. splits; reflexivity.
    + destruct Hmode as (p & _ & _ & _ & ->). eexists. splits; reflexivity.
Qed.

(** ** Constructors, destructor, swap and invocation *)

Lemma consistent_head_valid w f fs : consistent w (f :: fs) -> valid w f.
Proof. intros (_ & Hv & _). inversion Hv; assumption. Qed.

Lemma valid_transfer w w' f g :
  valid w f ->
  operations (any_callable_ g) = operations (any_callable_ f) ->
  invoker_ g = invoker_ f ->
  occupant w' (any_callable_ g) = occupant w (any_callable_ f) ->
  valid w' g.
Proof.
  intros Hv Eo Ei Ev T Ho. rewrite Eo in Ho. destruct (Hv T Ho) as (v & Hh).
  exists v. apply (holds_transfer w w' f); assumption.
Qed.

Lemma function_copy_keeps junk x w rest :
  consistent w (x :: rest) ->
  exists c w',
    consistent w' (c :: x :: rest) /\ untouched w w' (x :: rest) /\
    ((function_copy junk x w = Returned tt c w' /\
      operations (any_callable_ c) = operations (any_callable_ x) /\
      (forall T, operations (any_callable_ x) = Some T -> invoker_ c = invoker_ x) /\
      occupant w' (any_callable_ c) = occupant w (any_callable_ x)) \/
     (exists code,
        function_copy junk x w = Threw (thrown code) c w' /\
        operations (any_callable_ c) = None /\ heap w' = heap w)).
Proof.
  intros Hc. pose proof (consistent_head_valid _ _ _ Hc) as Hv.
  destruct (operations (any_callable_ x)) as [T|] eqn:Ho.
  - destruct (Hv T Ho) as (v & Hh). pose proof Hh as (_ & Hi & Hocc).
    destruct (copy_throws T v) as [code|] eqn:Hk.
    + unfold function_copy. rewrite Ho.
      destruct (copy_throws_spec T (any_callable_ (function_default junk))
                  (any_callable_ x) w v code Ho Hocc Hk) as (w' & -> & Hh' & Hn').
      exists (set_any (any_callable_ (function_default junk)) (function_default junk)), w'.
      splits.
      * apply consistent_cons_free;
          [apply block_of_empty; reflexivity | apply valid_empty; reflexivity |].
        apply (consistent_same_heap w); assumption.
      * apply untouched_same. assumption.
      * right. exists code. splits; [reflexivity | reflexivity | assumption].
    + destruct (function_copy_spec junk x w T v Hh Hk (proj1 Hc))
        as (c & w' & E & Hcv & Hxv & Hwf' & Hmode).
      exists c, w'.
      assert (Hfacts : operations (any_callable_ c) = Some T /\
                       (forall T', Some T = Some T' -> invoker_ c = invoker_ x) /\
                       occupant w' (any_callable_ c) = occupant w (any_callable_ x)).
      { destruct Hcv as (A & B & C). splits; congruence. }
      pose proof (holds_block w' c T v Hcv) as Hb.
      destruct (_In_place_callable T) eqn:HT.
      * destruct Hmode as (Hh' & Hn' & _). splits.
        -- apply consistent_cons_free; [assumption | eapply valid_holds; eassumption |].
           apply (consistent_same_heap w); assumption.
        -- apply untouched_same. assumption.
        -- left. splits; try assumption; apply Hfacts.
      * destruct Hmode as (Hp & Hh' & Hn' & _). destruct Hb as (q & Hq & _).
        assert (q = next w) as ->.
        { destruct (block_of_inv c q Hq) as (_ & _ & _ & Eq). congruence. }
        splits.
        -- apply (consistent_alloc w w' c (x :: rest) v); try assumption.
           eapply valid_holds; eassumption.
        -- apply (untouched_alloc w w' (x :: rest) v); assumption.
        -- left. splits; try assumption; apply Hfacts.
  - exists (function_default junk), w. splits.
    + apply consistent_cons_free;
        [apply block_of_empty; reflexivity | apply valid_empty; reflexivity | assumption].
    + apply untouched_same. reflexivity.
    + left. unfold function_copy. rewrite Ho. splits; try reflexivity.
      * discriminate.
      * rewrite (occupant_empty _ _ Ho). reflexivity.
Qed.

Lemma function_move_keeps junk x w rest :
  consistent w (x :: rest) ->
  exists dst x' w',
    function_move junk x w = Returned tt (dst, x') w' /\
    consistent w' (dst :: x' :: rest) /\
    heap w' = heap w /\ next w' = next w /\
    operations (any_callable_ x') = None /\
    operations (any_callable_ dst) = operations (any_callable_ x) /\
    occupant w' (any_callable_ dst) = occupant w (any_callable_ x) /\
    block_of dst = block_of x /\
    (forall T, operations (any_callable_ x) = Some T -> invoker_ dst = invoker_ x) /\
    exists es, trace w' = trace w ++ es /\ transfer_only es.
Proof.
  intros Hc. pose proof (consistent_head_valid _ _ _ Hc) as Hv.
  destruct (operations (any_callable_ x)) as [T|] eqn:Ho.
  - destruct (Hv T Ho) as (v & Hh).
    destruct (function_move_spec junk x w T v Hh)
      as (dst & x' & w' & E & Hd & Hox & _ & Hh' & Hn' & Htr & Hbox).
    assert (Hbd : block_of dst = block_of x).
    { apply block_of_transfer.
      - destruct Hd as (-> & _). congruence.
      - intros T' E' HT'. assert (T' = T) as -> by congruence. apply Hbox. assumption. }
    exists dst, x', w'. splits; try assumption.
    + apply (consistent_replace w w' [x] [dst; x'] rest); try assumption.
      * constructor; [eapply valid_holds; eassumption|].
        constructor; [apply valid_empty; assumption | constructor].
      * unfold blocks. simpl. rewrite Hbd, (block_of_empty x' Hox).
        destruct (block_of x); reflexivity.
    + destruct Hd as (-> & _). congruence.
    + destruct Hd as (_ & _ & ->), Hh as (_ & _ & ->). reflexivity.
    + intros T' _. destruct Hd as (_ & -> & _), Hh as (_ & -> & _). reflexivity.
  - exists (function_default junk), x, w. unfold function_move. rewrite Ho.
    splits; try reflexivity; try discriminate.
    + apply consistent_cons_free;
        [apply block_of_empty; reflexivity | apply valid_empty; reflexivity | assumption].
    + rewrite (occupant_empty _ _ Ho). reflexivity.
    + rewrite (block_of_empty x Ho). reflexivity.
    + exists []. split; [rewrite app_nil_r; reflexivity | apply transfer_only_nil].
Qed.

Lemma swap_keeps junk a b w rest :
  consistent w (a :: b :: rest) ->
  exists a' b' w',
    swap junk a b w = Returned tt (a', b') w' /\
    consistent w' (a' :: b' :: rest) /\
    heap w' = heap w /\ next w' = next w /\
    (operations (any_callable_ a') = operations (any_callable_ b) /\
     invoker_ a' = invoker_ b /\
     occupant w' (any_callable_ a') = occupant w (any_callable_ b)) /\
    (operations (any_callable_ b') = operations (any_callable_ a) /\
     invoker_ b' = invoker_ a /\
     occupant w' (any_callable_ b') = occupant w (any_callable_ a)) /\
    block_of a' = block_of b /\ block_of b' = block_of a /\
    exists es, trace w' = trace w ++ es /\ transfer_only es.
Proof.
  intros Hc.
  destruct (swap_spec junk a b w)
    as (a' & b' & w' & E & (Ao & Ai & Av) & (Bo & Bi & Bv) & Hh & Hn & Htr & As & Bs).
  assert (Hva : valid w a) by (eapply consistent_head_valid; eassumption).
  assert (Hvb : valid w b).
  { destruct Hc as (_ & Hv & _). inversion Hv as [|? ? _ Hv']; subst.
    inversion Hv'; assumption. }
  assert (Ha' : block_of a' = block_of b) by (apply block_of_transfer; assumption).
  assert (Hb' : block_of b' = block_of a) by (apply block_of_transfer; assumption).
  exists a', b', w'. splits; try assumption.
  apply (consistent_replace w w' [a; b] [a'; b'] rest); try assumption.
  - constructor; [apply (valid_transfer w w' b); assumption|].
    constructor; [apply (valid_transfer w w' a); assumption | constructor].
  - unfold blocks. simpl. rewrite Ha', Hb'.
    destruct (block_of a), (block_of b); try reflexivity. apply Permutation_swap.
Qed.

Lemma operator_call_keeps f args w rest :
  consistent w (f :: rest) ->
  exists f' w',
    after (operator_call f args w) = Some (f', w') /\
    consistent w' (f' :: rest) /\ untouched w w' rest /\
    operations (any_callable_ f') = operations (any_callable_ f) /\
    invoker_ f' = invoker_ f /\ trace w' = trace w.
Proof.
  intros Hc. pose proof (consistent_head_valid _ _ _ Hc) as Hv.
  destruct (operations (any_callable_ f)) as [T|] eqn:Ho.
  - destruct (Hv T Ho) as (v & Hh). pose proof Hh as (_ & Hi & _).
    pose proof (holds_block w f T v Hh) as Hb.
    destruct (_In_place_callable T) eqn:HT.
    + pose proof (call_in_place w f T v args Hh HT) as E. simpl in E.
      set (f' := set_any _ f) in E.
      assert (Hh' : holds w f' T (InPlace.get_ref T (any_callable_ f'))).
      { repeat split; try assumption. unfold occupant. simpl. rewrite Ho, HT. reflexivity. }
      exists f', w. splits; try reflexivity; try assumption.
      * rewrite E. destruct (fst (call_operator T v args)); reflexivity.
      * apply (consistent_replace w w [f] [f'] rest); try reflexivity; try assumption.
        -- constructor; [eapply valid_holds; eassumption | constructor].
        -- unfold blocks. simpl. rewrite Hb.
           rewrite (block_of_in_place f' T) by assumption. reflexivity.
      * apply untouched_same. reflexivity.
    + destruct (call_large w f T v args Hh HT) as (p & Hp & Hl & E). simpl in E.
      set (w' := Build_world _ _ _) in E.
      destruct Hb as (q & Hq & _).
      assert (q = p) as ->.
      { destruct (block_of_inv f q Hq) as (_ & _ & _ & Eq). congruence. }
      assert (Hh' : holds w' f T (snd (call_operator T v args))).
      { repeat split; try assumption. unfold occupant. rewrite Ho, HT.
        unfold Large.get_ref, Large.get_ptr. rewrite Hp. simpl.
        rewrite lookup_insert_eq. reflexivity. }
      exists f, w'. splits; try reflexivity; try assumption.
      * rewrite E. destruct (fst (call_operator T v args)); reflexivity.
      * apply (consistent_update w w' f f rest p (snd (call_operator T v args)));
          try reflexivity; try assumption.
        eapply valid_holds; eassumption.
      * apply (untouched_other w w' f rest p); try assumption.
        intros q Hne. simpl. apply lookup_insert_ne. congruence.
  - exists f, w. rewrite (call_empty f args w Ho). splits; try reflexivity.
    + assumption.
    + apply untouched_same. reflexivity.
    + assumption.
Qed.

Lemma function_destroy_keeps x w rest :
  consistent w (x :: rest) ->
  exists x' w',
    function_destroy x w = Returned tt x' w' /\
    consistent w' rest /\ untouched w w' rest /\
    block_of x' = None /\
    exists es, trace w' = trace w ++ es /\ count is_new es = 0%nat /\
               count is_copy es = 0%nat /\
               count is_delete es = match block_of x with Some _ => 1%nat | None => 0%nat end.
Proof.
  intros Hc. unfold function_destroy, operator_bool.
  destruct (operations (any_callable_ x)) as [T|] eqn:Ho.
  - destruct (unset_keeps x w rest T Ho Hc)
      as (x' & w' & -> & Ho' & _ & _ & Hc' & Hu & (es & Htr & Hn & Hcp & Hd)).
    pose proof (block_of_empty x' Ho') as Hb'.
    exists x', w'. splits; try assumption; try reflexivity.
    + apply (consistent_drop_free w' x'); assumption.
    + exists es. splits; try assumption.
      destruct (consistent_head_valid _ _ _ Hc T Ho) as (v & Hh).
      pose proof (holds_block w x T v Hh) as Hb.
      destruct (_In_place_callable T).
      * rewrite Hb. assumption.
      * destruct Hb as (p & -> & _). assumption.
  - exists x, w. pose proof (block_of_empty x Ho) as Hb.
    splits; try reflexivity; try assumption.
    + apply (consistent_drop_free w x); assumption.
    + apply untouched_same. reflexivity.
    + exists []. rewrite Hb, app_nil_r. splits; reflexivity.
Qed.

(** ** Ownership across the public operations *)

Lemma built_keeps junk T cat v w rest :
  consistent w rest -> constructible T cat v ->
  let fw := built (function_from_callable junk T cat v w) in
  consistent (snd fw) (fst fw :: rest).
Proof.
  intros Hc Hk.
  assert (Hc0 : consistent w (function_default junk :: rest)).
  { apply consistent_cons_free;
      [apply block_of_empty; reflexivity | apply valid_empty; reflexivity | assumption]. }
  destruct (set_keeps T cat v (function_default junk) w rest eq_refl Hc0)
    as (f' & w' & Hc' & _ & Hm).
  rewrite Hk in Hm. destruct Hm as (E & _).
  simpl. unfold function_from_callable. rewrite E. assumption.
Qed.

Lemma demo_large_consistent : consistent (snd demo_large) [fst demo_large].
Proof. apply (built_keeps junk0 large_lambda lvalue); [apply consistent_nil | reflexivity]. Qed.

Lemma demo_small_consistent : consistent (snd demo_small) [fst demo_small].
Proof. apply (built_keeps junk0 add_two rvalue); [apply consistent_nil | reflexivity]. Qed.

Lemma demo_second_consistent :
  consistent (snd demo_second) [fst demo_second; fst demo_large].
Proof.
  apply (built_keeps junk1 large_counter rvalue); [apply demo_large_consistent | reflexivity].
Qed.

(** X1. Constructing a container from a callable, beside any consistent set
    of containers, is never undefined.  When the callable's constructor
    completes the new container is not empty and the set with the new
    container is consistent (it owns the one block allocated, if any); when
    the constructor throws, the exception propagates and the heap is what it
    was.  The occupants of the other containers are unchanged. *)
Theorem construction_keeps_ownership junk T cat v w rest (Hc : consistent w rest) :
  exists f w',
    match construct T cat v with
    | inr _ =>
        function_from_callable junk T cat v w = Returned tt f w' /\
        consistent w' (f :: rest) /\
        operator_bool f = true /\
        (List.length v = words_of T -> holds w' f T v)
    | inl code =>
        function_from_callable junk T cat v w = Threw (thrown code) f w' /\
        consistent w' rest /\ heap w' = heap w
    end /\
    forall g, g ∈ rest ->
      occupant w' (any_callable_ g) = occupant w (any_callable_ g).
Proof.
  assert (Hc0 : consistent w (function_default junk :: rest)).
  { apply consistent_cons_free;
      [apply block_of_empty; reflexivity | apply valid_empty; reflexivity | assumption]. }
  destruct (set_keeps T cat v (function_default junk) w rest eq_refl Hc0)
    as (f' & w' & Hc' & Hu & Hm).
  exists f', w'. split.
  - unfold function_from_callable.
    destruct (construct T cat v) as [code|[obj s]].
    + destruct Hm as (E & Ho & _ & Hh). splits; try assumption.
      apply (consistent_drop_free w' f'); [apply block_of_empty|]; assumption.
    + destruct Hm as (E & Ho & _ & Hh & _). splits; try assumption.
      unfold operator_bool. rewrite Ho. reflexivity.
  - intros g Hg. apply (untouched_occupant w w' rest); assumption.
Qed.

(** X2. Copy construction from a container of a consistent set is never
    undefined.  Either it returns, and the set with the copy is consistent —
    the copy has the table reference and the occupant of its source and, if
    boxed, a block of its own — or the occupant's copy constructor throws,
    the exception propagates, and the set without the copy is consistent with
    the heap unchanged: the block allocated for the copy does not leak.  The
    occupants of the source and of all other containers are unchanged. *)
Theorem copy_construction_keeps_ownership junk x w rest
    (Hc : consistent w (x :: rest)) :
  exists c w',
    ((function_copy junk x w = Returned tt c w' /\
      consistent w' (c :: x :: rest) /\
      operations (any_callable_ c) = operations (any_callable_ x) /\
      occupant w' (any_callable_ c) = occupant w (any_callable_ x)) \/
     (exists code,
        function_copy junk x w = Threw (thrown code) c w' /\
        consistent w' (x :: rest) /\ heap w' = heap w)) /\
    forall g, g ∈ x :: rest ->
      occupant w' (any_callable_ g) = occupant w (any_callable_ g).
Proof.
  destruct (function_copy_keeps junk x w rest Hc) as (c & w' & Hc' & Hu & Hcase).
  exists c, w'. split.
  - destruct Hcase as [(E & Ho & _ & Hv)|(code & E & Ho & Hh)].
    + left. splits; assumption.
    + right. exists code. splits; try assumption.
      apply (consistent_drop_free w' c); [apply block_of_empty|]; assumption.
  - intros g Hg. apply (untouched_occupant w w' (x :: rest)); assumption.
Qed.

(** X3. Move construction from a container of a consistent set always
    returns; the set with the destination and the emptied source is
    consistent, so the block of a boxed occupant has exactly one owner, the
    destination; the heap is unchanged and the trace gains no allocation,
    release or copy construction. *)
Theorem move_construction_keeps_ownership junk x w rest
    (Hc : consistent w (x :: rest)) :
  exists dst x' w',
    function_move junk x w = Returned tt (dst, x') w' /\
    consistent w' (dst :: x' :: rest) /\
    block_of dst = block_of x /\ block_of x' = None /\
    operations (any_callable_ dst) = operations (any_callable_ x) /\
    occupant w' (any_callable_ dst) = occupant w (any_callable_ x) /\
    heap w' = heap w /\
    exists es, trace w' = trace w ++ es /\ transfer_only es.
Proof.
  destruct (function_move_keeps junk x w rest Hc)
    as (dst & x' & w' & E & Hc' & Hh & _ & Hox & Hod & Hv & Hb & _ & Htr).
  exists dst, x', w'. splits; try assumption.
  apply block_of_empty. assumption.
Qed.

(** X4. Destroying a container of a consistent set always returns and
    leaves the remaining containers consistent: a boxed occupant's block is
    released (one release), an in-place occupant or an empty container
    releases nothing, and no other container loses or changes its
    occupant. *)
Theorem destruction_keeps_ownership x w rest (Hc : consistent w (x :: rest)) :
  exists x' w' es,
    function_destroy x w = Returned tt x' w' /\
    consistent w' rest /\
    trace w' = trace w ++ es /\
    count is_new es = 0%nat /\
    count is_delete es = match block_of x with Some _ => 1%nat | None => 0%nat end /\
    (forall p, block_of x = Some p -> heap w' !! p = None) /\
    forall g, g ∈ rest ->
      occupant w' (any_callable_ g) = occupant w (any_callable_ g).
Proof.
  destruct (function_destroy_keeps x w rest Hc)
    as (x' & w' & E & Hc' & Hu & _ & (es & Htr & Hn & _ & Hd)).
  exists x', w', es. splits; try assumption.
  - intros p Hb. destruct (heap w' !! p) as [u|] eqn:Hl; [|reflexivity].
    exfalso. destruct Hc' as (_ & _ & _ & Hex).
    assert (Hin : p ∈ blocks rest) by (apply Hex; eauto).
    destruct Hc as (_ & _ & Hnd & _). unfold blocks in Hnd. simpl in Hnd.
    rewrite Hb in Hnd. apply NoDup_cons in Hnd as [Hnin _]. contradiction.
  - intros g Hg. apply (untouched_occupant w w' rest); assumption.
Qed.

(** X5. Swapping two containers of a consistent set always returns and
    keeps the set consistent with the heap unchanged: the two sides exchange
    the blocks they own. *)
Theorem swap_keeps_ownership junk a b w rest (Hc : consistent w (a :: b :: rest)) :
  exists a' b' w',
    swap junk a b w = Returned tt (a', b') w' /\
    consistent w' (a' :: b' :: rest) /\
    block_of a' = block_of b /\ block_of b' = block_of a /\
    heap w' = heap w.
Proof.
  destruct (swap_keeps junk a b w rest Hc)
    as (a' & b' & w' & E & Hc' & Hh & _ & _ & _ & Ha & Hb & _).
  exists a', b', w'. splits; assumption.
Qed.

(** X6. Invoking a container of a consistent set is never undefined,
    whether it returns, throws the occupant's exception or throws the
    empty-invocation error; it keeps the set consistent, leaves the
    container's table and invoker references as they were, runs no
    constructor, destructor, allocation or release, and does not change the
    occupant of any other container. *)
Theorem invocation_keeps_ownership f args w rest (Hc : consistent w (f :: rest)) :
  exists f' w',
    after (operator_call f args w) = Some (f', w') /\
    consistent w' (f' :: rest) /\
    operations (any_callable_ f') = operations (any_callable_ f) /\
    invoker_ f' = invoker_ f /\
    trace w' = trace w /\
    forall g, g ∈ rest ->
      occupant w' (any_callable_ g) = occupant w (any_callable_ g).
Proof.
  destruct (operator_call_keeps f args w rest Hc)
    as (f' & w' & E & Hc' & Hu & Ho & Hi & Htr).
  exists f', w'. splits; try assumption.
  intros g Hg. apply (untouched_occupant w w' rest); assumption.
Qed.

(** ** Ownership across the assignments *)

Ltac in_list :=
  repeat match goal with
         | H : _ ∈ _ :: _ |- _ => apply elem_of_cons in H as [->|H]
         end;
  solve [auto 6 using list_elem_of_here, list_elem_of_further].

Lemma perm_rotate3 {A} (a b c : A) l : a :: b :: c :: l ≡ₚ c :: a :: b :: l.
Proof.
  eapply perm_trans; [apply perm_skip, perm_swap | apply perm_swap].
Qed.

(** X7. Copy assignment [x = y] between two containers of a consistent set
    is never undefined and keeps the set consistent.  Either it returns,
    and [x] has the table reference and the occupant value of [y], its
    former block released by the destruction of the parameter; or the copy
    made for the parameter throws, and [x] is returned as it was with the
    heap unchanged.  In both cases [y] and all other containers keep their
    occupants. *)
Theorem copy_assignment_keeps_ownership jp jt this y w rest
    (Hc : consistent w (this :: y :: rest)) :
  exists this' w',
    ((assign_copy jp jt this y w = Returned tt this' w' /\
      operations (any_callable_ this') = operations (any_callable_ y) /\
      occupant w' (any_callable_ this') = occupant w (any_callable_ y)) \/
     (exists code,
        assign_copy jp jt this y w = Threw (thrown code) this' w' /\
        this' = this /\ heap w' = heap w)) /\
    consistent w' (this' :: y :: rest) /\
    forall g, g ∈ y :: rest ->
      occupant w' (any_callable_ g) = occupant w (any_callable_ g).
Proof.
  assert (Hc0 : consistent w (y :: this :: rest))
    by (apply (consistent_perm w (this :: y :: rest)); [apply perm_swap | assumption]).
  destruct (function_copy_keeps jp y w (this :: rest) Hc0)
    as (c & w1 & Hc1 & Hu1 & [(E & Ho & _ & Hv)|(code & E & Ho & Hh)]).
  - assert (Hc1' : consistent w1 (this :: c :: y :: rest))
      by (apply (consistent_perm w1 (c :: y :: this :: rest));
          [apply perm_rotate3 | assumption]).
    destruct (swap_keeps jt this c w1 (y :: rest) Hc1')
      as (t2 & c2 & w2 & E2 & Hc2 & Hh2 & _ & (Ao & _ & Av) & _).
    assert (Hc2' : consistent w2 (c2 :: t2 :: y :: rest))
      by (apply (consistent_perm w2 (t2 :: c2 :: y :: rest)); [apply perm_swap | assumption]).
    destruct (function_destroy_keeps c2 w2 (t2 :: y :: rest) Hc2')
      as (c3 & w3 & E3 & Hc3 & Hu3 & _).
    assert (Hocc : forall g, g ∈ y :: rest ->
              occupant w3 (any_callable_ g) = occupant w (any_callable_ g)).
    { intros g Hg.
      rewrite (untouched_occupant w2 w3 (t2 :: y :: rest) g Hu3) by in_list.
      rewrite (occupant_same_heap w1 w2 _ Hh2).
      apply (untouched_occupant w w1 (y :: this :: rest) g Hu1). in_list. }
    exists t2, w3. splits; try assumption.
    left. splits.
    + unfold assign_copy, assign_body. rewrite E, E2, E3. reflexivity.
    + congruence.
    + rewrite (untouched_occupant w2 w3 (t2 :: y :: rest) t2 Hu3) by in_list.
      congruence.
  - exists this, w1. splits.
    + right. exists code. splits; try reflexivity; try assumption.
      unfold assign_copy. rewrite E. reflexivity.
    + apply (consistent_perm w1 (y :: this :: rest)); [apply perm_swap|].
      apply (consistent_drop_free w1 c); [apply block_of_empty|]; assumption.
    + intros g Hg. apply (untouched_occupant w w1 (y :: this :: rest) g Hu1). in_list.
Qed.

(** X8. Self copy assignment [x = x] on a container of a consistent set
    keeps the set consistent: when it returns, [x] has the same table
    reference and occupant value, now in a block of its own making while the
    former block is released; when the copy throws, [x] and the heap are as
    they were.  No other container changes its occupant. *)
Theorem self_copy_assignment_keeps_ownership jp jt x w rest
    (Hc : consistent w (x :: rest)) :
  exists x' w',
    ((assign_copy jp jt x x w = Returned tt x' w' /\
      operations (any_callable_ x') = operations (any_callable_ x) /\
      occupant w' (any_callable_ x') = occupant w (any_callable_ x)) \/
     (exists code,
        assign_copy jp jt x x w = Threw (thrown code) x' w' /\
        x' = x /\ heap w' = heap w)) /\
    consistent w' (x' :: rest) /\
    forall g, g ∈ rest ->
      occupant w' (any_callable_ g) = occupant w (any_callable_ g).
Proof.
  destruct (function_copy_keeps jp x w rest Hc)
    as (c & w1 & Hc1 & Hu1 & [(E & Ho & _ & Hv)|(code & E & Ho & Hh)]).
  - assert (Hc1' : consistent w1 (x :: c :: rest))
      by (apply (consistent_perm w1 (c :: x :: rest)); [apply perm_swap | assumption]).
    destruct (swap_keeps jt x c w1 rest Hc1')
      as (t2 & c2 & w2 & E2 & Hc2 & Hh2 & _ & (Ao & _ & Av) & _).
    assert (Hc2' : consistent w2 (c2 :: t2 :: rest))
      by (apply (consistent_perm w2 (t2 :: c2 :: rest)); [apply perm_swap | assumption]).
    destruct (function_destroy_keeps c2 w2 (t2 :: rest) Hc2')
      as (c3 & w3 & E3 & Hc3 & Hu3 & _).
    exists t2, w3. splits; try assumption.
    + left. splits.
      * unfold assign_copy, assign_body. rewrite E, E2, E3. reflexivity.
      * congruence.
      * rewrite (untouched_occupant w2 w3 (t2 :: rest) t2 Hu3) by in_list.
        congruence.
    + intros g Hg.
      rewrite (untouched_occupant w2 w3 (t2 :: rest) g Hu3) by in_list.
      rewrite (occupant_same_heap w1 w2 _ Hh2).
      apply (untouched_occupant w w1 (x :: rest) g Hu1). in_list.
  - exists x, w1. splits.
    + right. exists code. splits; try reflexivity; try assumption.
      unfold assign_copy. rewrite E. reflexivity.
    + apply (consistent_drop_free w1 c); [apply block_of_empty|]; assumption.
    + intros g Hg. apply (untouched_occupant w w1 (x :: rest) g Hu1). in_list.
Qed.

(** X9. Move assignment [x = std::move(y)] between two containers of a
    consistent set always returns and keeps the set consistent: [x] has the
    table reference, the occupant value and the block of [y], [y] is empty,
    the former block of [x] is released once, and the trace gains no
    allocation and no copy construction.  No other container changes its
    occupant. *)
Theorem move_assignment_keeps_ownership jp jt this y w rest
    (Hc : consistent w (this :: y :: rest)) :
  exists this' y' w' es,
    assign_move jp jt this y w = Returned tt (this', y') w' /\
    consistent w' (this' :: y' :: rest) /\
    operations (any_callable_ y') = None /\
    operations (any_callable_ this') = operations (any_callable_ y) /\
    occupant w' (any_callable_ this') = occupant w (any_callable_ y) /\
    block_of this' = block_of y /\
    trace w' = trace w ++ es /\
    count is_new es = 0%nat /\ count is_copy es = 0%nat /\
    count is_delete es = match block_of this with Some _ => 1%nat | None => 0%nat end /\
    forall g, g ∈ rest ->
      occupant w' (any_callable_ g) = occupant w (any_callable_ g).
Proof.
  assert (Hc0 : consistent w (y :: this :: rest))
    by (apply (consistent_perm w (this :: y :: rest)); [apply perm_swap | assumption]).
  destruct (function_move_keeps jp y w (this :: rest) Hc0)
    as (oth & y' & w1 & E & Hc1 & Hh1 & _ & Hoy & Hoo & Hvo & Hbo & _
        & (es1 & Htr1 & (N1 & D1 & C1))).
  assert (Hc1' : consistent w1 (this :: oth :: y' :: rest))
    by (apply (consistent_perm w1 (oth :: y' :: this :: rest));
        [apply perm_rotate3 | assumption]).
  destruct (swap_keeps jt this oth w1 (y' :: rest) Hc1')
    as (t2 & c2 & w2 & E2 & Hc2 & Hh2 & _ & (Ao & _ & Av) & _ & Hbt & Hbc
        & (es2 & Htr2 & (N2 & D2 & C2))).
  assert (Hc2' : consistent w2 (c2 :: t2 :: y' :: rest))
    by (apply (consistent_perm w2 (t2 :: c2 :: y' :: rest)); [apply perm_swap | assumption]).
  destruct (function_destroy_keeps c2 w2 (t2 :: y' :: rest) Hc2')
    as (c3 & w3 & E3 & Hc3 & Hu3 & _ & (es3 & Htr3 & N3 & C3 & D3)).
  exists t2, y', w3, (es1 ++ es2 ++ es3). splits; try assumption.
  - unfold assign_move, assign_body. rewrite E, E2, E3. reflexivity.
  - congruence.
  - rewrite (untouched_occupant w2 w3 (t2 :: y' :: rest) t2 Hu3) by in_list.
    congruence.
  - congruence.
  - rewrite Htr3, Htr2, Htr1, <- !app_assoc. reflexivity.
  - rewrite !count_app, N1, N2, N3. reflexivity.
  - rewrite !count_app, C1, C2, C3. reflexivity.
  - rewrite !count_app, D1, D2, D3, Hbc. reflexivity.
  - intros g Hg.
    rewrite (untouched_occupant w2 w3 (t2 :: y' :: rest) g Hu3) by in_list.
    rewrite (occupant_same_heap w1 w2 _ Hh2). apply occupant_same_heap. assumption.
Qed.

(** X10. Assignment of a raw callable to a container of a consistent set.
    When the callable's constructor throws, the exception propagates and
    the container is left empty: its former occupant was destroyed and its
    block released first, so the set stays consistent (nothing leaks or
    dangles) and no other container changes its occupant.  When the
    constructor completes, control reaches the end of the template
    [operator=], which has no return statement: the call is undefined. *)
Theorem callable_assignment_failure_keeps_ownership T cat v this w rest
    (Hc : consistent w (this :: rest)) :
  match construct T cat v with
  | inl code =>
      exists this' w',
        assign_callable T cat v this w = Threw (thrown code) this' w' /\
        operations (any_callable_ this') = None /\
        consistent w' (this' :: rest) /\
        (forall p, block_of this = Some p -> heap w' !! p = None) /\
        forall g, g ∈ rest ->
          occupant w' (any_callable_ g) = occupant w (any_callable_ g)
  | inr _ => assign_callable T cat v this w = Undefined
  end.
Proof.
  unfold assign_callable, operator_bool.
  destruct (operations (any_callable_ this)) as [T0|] eqn:Ho.
  - destruct (unset_keeps this w rest T0 Ho Hc)
      as (t1 & w1 & -> & Ho1 & _ & _ & Hc1 & Hu1 & _).
    destruct (set_keeps T cat v t1 w1 rest Ho1 Hc1) as (t2 & w2 & Hc2 & Hu2 & Hm).
    destruct (construct T cat v) as [code|[obj s]].
    + destruct Hm as (E & Ho2 & _ & Hh2). rewrite E.
      exists t2, w2. splits; try assumption; try reflexivity.
      * intros p Hb. destruct (heap w2 !! p) as [u|] eqn:Hl; [|reflexivity].
        exfalso. destruct Hc2 as (_ & _ & _ & Hex).
        assert (Hin : p ∈ blocks (t2 :: rest)) by (apply Hex; eauto).
        unfold blocks in Hin. simpl in Hin.
        rewrite (block_of_empty t2 Ho2) in Hin.
        destruct Hc as (_ & _ & Hnd & _). unfold blocks in Hnd. simpl in Hnd.
        rewrite Hb in Hnd. apply NoDup_cons in Hnd as [Hnin _]. contradiction.
      * intros g Hg.
        rewrite (untouched_occupant w1 w2 rest g Hu2 Hg).
        apply (untouched_occupant w w1 rest g Hu1 Hg).
    + destruct Hm as (E & _). rewrite E. reflexivity.
  - destruct (set_keeps T cat v this w rest Ho Hc) as (t2 & w2 & Hc2 & Hu2 & Hm).
    destruct (construct T cat v) as [code|[obj s]].
    + destruct Hm as (E & Ho2 & _ & Hh2). rewrite E.
      exists t2, w2. splits; try assumption; try reflexivity.
      * intros p Hb. rewrite (block_of_empty this Ho) in Hb. discriminate.
      * intros g Hg. apply (untouched_occupant w w2 rest g Hu2 Hg).
    + destruct Hm as (E & _). rewrite E. reflexivity.
Qed.

(** The storage of a boxed container survives a swap with itself. *)
Lemma swap_self_storage junk x w x' w' T :
  swap_self junk x w = Returned tt x' w' ->
  operations (any_callable_ x) = Some T -> _In_place_callable T = false ->
  storage (any_callable_ x') = storage (any_callable_ x).
Proof.
  unfold swap_self. intros E Ho HT. rewrite Ho in E.
  destruct (move_spec T {| storage := junk; operations := None |} (any_callable_ x) w)
    as (t & o & w1 & Em & Ht & Hs & _ & _ & _ & _ & Hbox).
  rewrite Em in E. destruct (Hbox HT) as (Hts & _ & _).
  cbn [any_callable_ set_any] in E. rewrite Hs, Ht, Ho in E.
  destruct (move_spec T o t w1) as (d & s & w2 & Em2 & _ & _ & _ & _ & _ & _ & Hbox2).
  rewrite Em2 in E. destruct (Hbox2 HT) as (Hds & _ & _).
  injection E as <- _. simpl. congruence.
Qed.

(** X11. Swapping a container of a consistent set with itself always
    returns: the container keeps its table reference, its invoker reference,
    its occupant and its block, the heap is unchanged and the set stays
    consistent. *)
Theorem self_swap_keeps_ownership junk x w rest (Hc : consistent w (x :: rest)) :
  exists x' w',
    swap_self junk x w = Returned tt x' w' /\
    operations (any_callable_ x') = operations (any_callable_ x) /\
    invoker_ x' = invoker_ x /\
    occupant w' (any_callable_ x') = occupant w (any_callable_ x) /\
    block_of x' = block_of x /\
    heap w' = heap w /\
    consistent w' (x' :: rest).
Proof.
  destruct (swap_self_spec junk x w) as (x' & w' & E & Ho & Hi & Hv & Hh).
  assert (Hb : block_of x' = block_of x).
  { apply block_of_transfer; [assumption|]. intros T HoT HT.
    apply (swap_self_storage junk x w x' w' T); assumption. }
  assert (Hn : next w' = next w).
  { revert E. unfold swap_self.
    destruct (operations (any_callable_ x)) as [T|] eqn:HoT.
    - destruct (move_spec T {| storage := junk; operations := None |} (any_callable_ x) w)
        as (t & o & w1 & -> & Ht & Hs & _ & Hn1 & _).
      cbn [any_callable_ set_any]. rewrite Hs, Ht, HoT.
      destruct (move_spec T o t w1) as (d & s & w2 & -> & _ & _ & _ & Hn2 & _).
      intros [= _ <-]. congruence.
    - simpl. rewrite HoT. intros [= _ <-]. reflexivity. }
  exists x', w'. splits; try assumption.
  apply (consistent_replace w w' [x] [x'] rest); try assumption.
  - constructor; [|constructor].
    apply (valid_transfer w w' x); try assumption.
    eapply consistent_head_valid; eassumption.
  - unfold blocks. simpl. rewrite Hb. reflexivity.
Qed.

(** X12. Self move assignment [x = std::move(x)] on a container of a
    consistent set always returns and gives [x] back what it held: a
    container that held a value holds it again, an empty one is empty; the
    heap is unchanged, the set stays consistent, and the trace gains no
    allocation, release or copy construction. *)
Theorem self_move_assignment_keeps_value jp jt x w rest
    (Hc : consistent w (x :: rest)) :
  exists x' w' es,
    assign_move_self jp jt x w = Returned tt x' w' /\
    operations (any_callable_ x') = operations (any_callable_ x) /\
    occupant w' (any_callable_ x') = occupant w (any_callable_ x) /\
    (forall T v, holds w x T v -> holds w' x' T v) /\
    block_of x' = block_of x /\
    heap w' = heap w /\
    consistent w' (x' :: rest) /\
    trace w' = trace w ++ es /\ transfer_only es.
Proof.
  destruct (function_move_keeps jp x w rest Hc)
    as (oth & x1 & w1 & E & Hc1 & Hh1 & _ & Hox & Hoo & Hvo & Hbo & Hio
        & (es1 & Htr1 & Hes1)).
  assert (Hc1' : consistent w1 (x1 :: oth :: rest))
    by (apply (consistent_perm w1 (oth :: x1 :: rest)); [apply perm_swap | assumption]).
  destruct (swap_keeps jt x1 oth w1 rest Hc1')
    as (t2 & c2 & w2 & E2 & Hc2 & Hh2 & _ & (Ao & Ai & Av) & (Bo & _) & Hbt & Hbc
        & (es2 & Htr2 & Hes2)).
  assert (Hoc : operations (any_callable_ c2) = None) by congruence.
  exists t2, w2, (es1 ++ es2). splits.
  - unfold assign_move_self, assign_body. rewrite E, E2.
    unfold function_destroy, operator_bool. rewrite Hoc. reflexivity.
  - congruence.
  - congruence.
  - intros T v Hh. pose proof Hh as (HoT & HiT & HvT). repeat split.
    + congruence.
    + rewrite Ai, (Hio T HoT). assumption.
    + congruence.
  - congruence.
  - congruence.
  - apply (consistent_drop_free w2 c2); [apply block_of_empty; assumption|].
    apply (consistent_perm w2 (t2 :: c2 :: rest)); [apply perm_swap | assumption].
  - rewrite Htr2, Htr1, app_assoc. reflexivity.
  - apply transfer_only_app; assumption.
Qed.

(** ** The end of a scope *)

Lemma consistent_nil_heap w : consistent w [] -> heap w = ∅.
Proof.
  intros (_ & _ & _ & Hex). apply map_eq. intros p. rewrite lookup_empty.
  destruct (heap w !! p) as [u|] eqn:E; [|reflexivity].
  assert (Hin : p ∈ blocks []) by (apply Hex; eauto). inversion Hin.
Qed.

(** X13. When all the containers of a consistent set are destroyed, in any
    order the list gives, every destructor returns, each block is released
    exactly once (as many releases as blocks owned, no allocation), and the
    heap ends empty: nothing is leaked and nothing is released twice. *)
Theorem scope_exit_releases_every_block fs w (Hc : consistent w fs) :
  exists w' es,
    destroy_all fs w = Some w' /\
    heap w' = ∅ /\
    trace w' = trace w ++ es /\
    count is_delete es = List.length (blocks fs) /\
    count is_new es = 0%nat.
Proof.
  revert w Hc. induction fs as [|f fs IH]; intros w Hc.
  - exists w, []. splits; try reflexivity.
    + apply consistent_nil_heap. assumption.
    + rewrite app_nil_r. reflexivity.
  - destruct (function_destroy_keeps f w fs Hc)
      as (f' & w1 & E & Hc1 & _ & _ & (es1 & Htr1 & N1 & _ & D1)).
    destruct (IH w1 Hc1) as (w' & es & E' & Hh & Htr & D & N).
    exists w', (es1 ++ es). simpl. rewrite E. splits; try assumption.
    + rewrite Htr, Htr1, app_assoc. reflexivity.
    + rewrite count_app, D1, D. unfold blocks. simpl.
      destruct (block_of f); reflexivity.
    + rewrite count_app, N1, N. reflexivity.
Qed.

(** ** The reference invariant *)

Lemma swap_agree junk a b w a' b' w' :
  references_agree a -> references_agree b ->
  swap junk a b w = Returned tt (a', b') w' ->
  references_agree a' /\ references_agree b'.
Proof.
  intros Ha Hb E.
  destruct (swap_spec junk a b w)
    as (a1 & b1 & w1 & E1 & (Ao & Ai & _) & (Bo & Bi & _) & _).
  rewrite E1 in E. injection E as <- <- _. split.
  - apply (references_agree_transfer b); assumption.
  - apply (references_agree_transfer a); assumption.
Qed.

Lemma assign_move_agree jp jt this y w this' y' w' :
  references_agree y ->
  assign_move jp jt this y w = Returned tt (this', y') w' ->
  references_agree this' /\ references_agree y'.
Proof.
  intros Hy. unfold assign_move, assign_body.
  destruct (function_move jp y w) as [[] [oth y1] w1|e [oth y1] w1|] eqn:Em;
    try discriminate.
  destruct (function_move_agree jp y w oth y1 w1 Hy Em) as (Ho & Hy1).
  destruct (swap_spec jt this oth w1) as (t2 & c2 & w2 & -> & (Ao & Ai & _) & _).
  destruct (function_destroy c2 w2) as [[] c3 w3| |]; try discriminate.
  intros [= <- <- _]. split; [|assumption].
  apply (references_agree_transfer oth); assumption.
Qed.

(** X14. The two references of a container stay null together across
    every operation that returns: a container whose Dispatch Table reference
    is null exactly when its Invoker reference is null yields, through
    default, copy and move construction, construction from a callable, both
    container assignments and swap, only containers with that property. *)
Theorem reference_invariant_kept x (Hx : references_agree x) :
  (forall junk, references_agree (function_default junk)) /\
  (forall junk T cat v w f w',
      function_from_callable junk T cat v w = Returned tt f w' -> references_agree f) /\
  (forall junk w c w',
      function_copy junk x w = Returned tt c w' -> references_agree c) /\
  (forall junk w dst x' w',
      function_move junk x w = Returned tt (dst, x') w' ->
      references_agree dst /\ references_agree x') /\
  (forall jp jt this w this' w',
      assign_copy jp jt this x w = Returned tt this' w' -> references_agree this') /\
  (forall jp jt this w this' x' w',
      assign_move jp jt this x w = Returned tt (this', x') w' ->
      references_agree this' /\ references_agree x') /\
  (forall junk y w x' y' w',
      references_agree y -> swap junk x y w = Returned tt (x', y') w' ->
      references_agree x' /\ references_agree y').
Proof.
  splits.
  - apply references_agree_default.
  - apply function_from_callable_agree.
  - intros junk w c w'. apply function_copy_agree. assumption.
  - intros junk w dst x' w'. apply function_move_agree. assumption.
  - intros jp jt this w this' w'. apply assign_copy_agree. assumption.
  - intros jp jt this w this' x' w'. apply assign_move_agree. assumption.
  - intros junk y w x' y' w' Hy. apply swap_agree; assumption.
Qed.

(** ** The ownership theorems at the containers of the demonstration program *)

Lemma construction_keeps_ownership_witness :
  consistent (snd demo_large) [fst demo_large] /\
  exists f w',
    function_from_callable junk1 large_counter rvalue [5; 0; 0; 0] (snd demo_large)
      = Returned tt f w' /\
    consistent w' [f; fst demo_large].
Proof.
  split; [exact demo_large_consistent|].
  destruct (construction_keeps_ownership junk1 large_counter rvalue [5; 0; 0; 0]
              (snd demo_large) [fst demo_large] demo_large_consistent)
    as (f & w' & (E & Hc & _) & _).
  exists f, w'. split; assumption.
Defined.

Lemma copy_construction_keeps_ownership_witness :
  consistent (snd demo_second) [fst demo_second; fst demo_large] /\
  exists c w',
    after (function_copy junk0 (fst demo_second) (snd demo_second)) = Some (c, w') /\
    occupant w' (any_callable_ (fst demo_large))
      = occupant (snd demo_second) (any_callable_ (fst demo_large)).
Proof.
  split; [exact demo_second_consistent|].
  destruct (copy_construction_keeps_ownership junk0 (fst demo_second) (snd demo_second)
              [fst demo_large] demo_second_consistent)
    as (c & w' & [(E & _)|(code & E & _)] & Hocc);
    exists c, w'; (split; [rewrite E; reflexivity | apply Hocc; in_list]).
Defined.

Lemma move_construction_keeps_ownership_witness :
  consistent (snd demo_second) [fst demo_second; fst demo_large] /\
  exists dst x' w',
    function_move junk0 (fst demo_second) (snd demo_second) = Returned tt (dst, x') w' /\
    consistent w' [dst; x'; fst demo_large].
Proof.
  split; [exact demo_second_consistent|].
  destruct (move_construction_keeps_ownership junk0 (fst demo_second) (snd demo_second)
              [fst demo_large] demo_second_consistent)
    as (dst & x' & w' & E & Hc & _).
  exists dst, x', w'. split; assumption.
Defined.

Lemma destruction_keeps_ownership_witness :
  consistent (snd demo_second) [fst demo_second; fst demo_large] /\
  exists x' w',
    function_destroy (fst demo_second) (snd demo_second) = Returned tt x' w' /\
    consistent w' [fst demo_large].
Proof.
  split; [exact demo_second_consistent|].
  destruct (destruction_keeps_ownership (fst demo_second) (snd demo_second)
              [fst demo_large] demo_second_consistent)
    as (x' & w' & es & E & Hc & _).
  exists x', w'. split; assumption.
Defined.

Lemma swap_keeps_ownership_witness :
  consistent (snd demo_second) [fst demo_second; fst demo_large] /\
  exists a' b' w',
    swap junk0 (fst demo_second) (fst demo_large) (snd demo_second)
      = Returned tt (a', b') w' /\
    consistent w' [a'; b'].
Proof.
  split; [exact demo_second_consistent|].
  destruct (swap_keeps_ownership junk0 (fst demo_second) (fst demo_large)
              (snd demo_second) [] demo_second_consistent)
    as (a' & b' & w' & E & Hc & _).
  exists a', b', w'. split; assumption.
Defined.

Lemma invocation_keeps_ownership_witness :
  consistent (snd demo_second) [fst demo_second; fst demo_large] /\
  exists f' w',
    after (operator_call (fst demo_second) 0 (snd demo_second)) = Some (f', w') /\
    consistent w' [f'; fst demo_large].
Proof.
  split; [exact demo_second_consistent|].
  destruct (invocation_keeps_ownership (fst demo_second) 0 (snd demo_second)
              [fst demo_large] demo_second_consistent)
    as (f' & w' & E & Hc & _).
  exists f', w'. split; assumption.
Defined.

Lemma copy_assignment_keeps_ownership_witness :
  consistent (snd demo_second) [fst demo_second; fst demo_large] /\
  exists this' w',
    consistent w' [this'; fst demo_large] /\
    occupant w' (any_callable_ (fst demo_large))
      = occupant (snd demo_second) (any_callable_ (fst demo_large)).
Proof.
  split; [exact demo_second_consistent|].
  destruct (copy_assignment_keeps_ownership junk0 junk1 (fst demo_second)
              (fst demo_large) (snd demo_second) [] demo_second_consistent)
    as (this' & w' & _ & Hc & Hocc).
  exists this', w'. split; [assumption | apply Hocc; in_list].
Defined.

Lemma self_copy_assignment_keeps_ownership_witness :
  consistent (snd demo_second) [fst demo_second; fst demo_large] /\
  exists x' w', consistent w' [x'; fst demo_large].
Proof.
  split; [exact demo_second_consistent|].
  destruct (self_copy_assignment_keeps_ownership junk0 junk1 (fst demo_second)
              (snd demo_second) [fst demo_large] demo_second_consistent)
    as (x' & w' & _ & Hc & _).
  exists x', w'. assumption.
Defined.

Lemma move_assignment_keeps_ownership_witness :
  consistent (snd demo_second) [fst demo_second; fst demo_large] /\
  exists this' y' w',
    assign_move junk0 junk1 (fst demo_second) (fst demo_large) (snd demo_second)
      = Returned tt (this', y') w' /\
    consistent w' [this'; y'] /\
    operations (any_callable_ y') = None.
Proof.
  split; [exact demo_second_consistent|].
  destruct (move_assignment_keeps_ownership junk0 junk1 (fst demo_second)
              (fst demo_large) (snd demo_second) [] demo_second_consistent)
    as (this' & y' & w' & es & E & Hc & Ho & _).
  exists this', y', w'. splits; assumption.
Defined.

Lemma callable_assignment_failure_keeps_ownership_witness :
  consistent (snd demo_second) [fst demo_second; fst demo_large] /\
  exists this' w',
    assign_callable throwing_copy lvalue [5] (fst demo_second) (snd demo_second)
      = Threw (thrown 7) this' w' /\
    consistent w' [this'; fst demo_large].
Proof.
  split; [exact demo_second_consistent|].
  destruct (callable_assignment_failure_keeps_ownership throwing_copy lvalue [5]
              (fst demo_second) (snd demo_second) [fst demo_large]
              demo_second_consistent)
    as (this' & w' & E & _ & Hc & _).
  exists this', w'. split; assumption.
Defined.

Lemma self_swap_keeps_ownership_witness :
  consistent (snd demo_second) [fst demo_second; fst demo_large] /\
  exists x' w',
    swap_self junk0 (fst demo_second) (snd demo_second) = Returned tt x' w' /\
    consistent w' [x'; fst demo_large].
Proof.
  split; [exact demo_second_consistent|].
  destruct (self_swap_keeps_ownership junk0 (fst demo_second) (snd demo_second)
              [fst demo_large] demo_second_consistent)
    as (x' & w' & E & _ & _ & _ & _ & _ & Hc).
  exists x', w'. split; assumption.
Defined.

Lemma self_move_assignment_keeps_value_witness :
  consistent (snd demo_second) [fst demo_second; fst demo_large] /\
  exists x' w',
    assign_move_self junk0 junk1 (fst demo_second) (snd demo_second)
      = Returned tt x' w' /\
    heap w' = heap (snd demo_second).
Proof.
  split; [exact demo_second_consistent|].
  destruct (self_move_assignment_keeps_value junk0 junk1 (fst demo_second)
              (snd demo_second) [fst demo_large] demo_second_consistent)
    as (x' & w' & es & E & _ & _ & _ & _ & Hh & _).
  exists x', w'. split; assumption.
Defined.

Lemma scope_exit_releases_every_block_witness :
  consistent (snd demo_second) [fst demo_second; fst demo_large] /\
  exists w',
    destroy_all [fst demo_second; fst demo_large] (snd demo_second) = Some w' /\
    heap w' = ∅.
Proof.
  split; [exact demo_second_consistent|].
  destruct (scope_exit_releases_every_block [fst demo_second; fst demo_large]
              (snd demo_second) demo_second_consistent)
    as (w' & es & E & Hh & _).
  exists w'. split; assumption.
Defined.

Lemma reference_invariant_kept_witness :
  references_agree (fst demo_large) /\
  forall junk w c w',
    function_copy junk (fst demo_large) w = Returned tt c w' -> references_agree c.
Proof.
  assert (H : references_agree (fst demo_large)) by (split; discriminate).
  split; [exact H|].
  apply (reference_invariant_kept (fst demo_large) H).
Defined.

(** ** Indeterminate storage *)

(** X15. The indeterminate bytes found in the storage of a container under
    construction, or of the temporary of [swap], never reach an observation:
    for any two choices of these bytes, copy construction, move construction
    and swap give containers with the same table reference, the same invoker
    reference and the same occupant, in heaps with the same content. *)
Theorem indeterminate_storage_is_never_observed junk junk' x w T v
    (H : holds w x T v) (Hk : copy_throws T v = None) (Hwf : wf_world w) :
  (exists c w1 c' w1',
      function_copy junk x w = Returned tt c w1 /\
      function_copy junk' x w = Returned tt c' w1' /\
      operations (any_callable_ c) = operations (any_callable_ c') /\
      invoker_ c = invoker_ c' /\
      occupant w1 (any_callable_ c) = occupant w1' (any_callable_ c') /\
      heap w1 = heap w1') /\
  (exists d s w1 d' s' w1',
      function_move junk x w = Returned tt (d, s) w1 /\
      function_move junk' x w = Returned tt (d', s') w1' /\
      operations (any_callable_ d) = operations (any_callable_ d') /\
      invoker_ d = invoker_ d' /\
      occupant w1 (any_callable_ d) = occupant w1' (any_callable_ d') /\
      operator_bool s = false /\ operator_bool s' = false /\
      heap w1 = heap w1') /\
  (forall y,
    exists a b w1 a' b' w1',
      swap junk x y w = Returned tt (a, b) w1 /\
      swap junk' x y w = Returned tt (a', b') w1' /\
      (operations (any_callable_ a) = operations (any_callable_ a') /\
       invoker_ a = invoker_ a' /\
       occupant w1 (any_callable_ a) = occupant w1' (any_callable_ a')) /\
      (operations (any_callable_ b) = operations (any_callable_ b') /\
       invoker_ b = invoker_ b' /\
       occupant w1 (any_callable_ b) = occupant w1' (any_callable_ b')) /\
      heap w1 = heap w1').
Proof.
  splits.
  - destruct (function_copy_spec junk x w T v H Hk Hwf)
      as (c & w1 & E & (Ao & Ai & Av) & _ & _ & Hm).
    destruct (function_copy_spec junk' x w T v H Hk Hwf)
      as (c' & w1' & E' & (Ao' & Ai' & Av') & _ & _ & Hm').
    exists c, w1, c', w1'. splits; try assumption; try congruence.
    destruct (_In_place_callable T).
    + destruct Hm as (-> & _), Hm' as (-> & _). reflexivity.
    + destruct Hm as (_ & -> & _), Hm' as (_ & -> & _). reflexivity.
  - destruct (function_move_spec junk x w T v H)
      as (d & s & w1 & E & (Ao & Ai & Av) & Hs & _ & Hh & _).
    destruct (function_move_spec junk' x w T v H)
      as (d' & s' & w1' & E' & (Ao' & Ai' & Av') & Hs' & _ & Hh' & _).
    exists d, s, w1, d', s', w1'. splits; try assumption; try congruence.
    + unfold operator_bool. rewrite Hs. reflexivity.
    + unfold operator_bool. rewrite Hs'. reflexivity.
  - intros y.
    destruct (swap_spec junk x y w)
      as (a & b & w1 & E & (Ao & Ai & Av) & (Bo & Bi & Bv) & Hh & _).
    destruct (swap_spec junk' x y w)
      as (a' & b' & w1' & E' & (Ao' & Ai' & Av') & (Bo' & Bi' & Bv') & Hh' & _).
    exists a, b, w1, a', b', w1'. splits; try assumption; congruence.
Qed.

Lemma indeterminate_storage_is_never_observed_witness :
  holds (snd demo_large) (fst demo_large) large_lambda [10; 11; 12; 13] /\
  copy_throws large_lambda [10; 11; 12; 13] = None /\
  wf_world (snd demo_large) /\
  exists c w1 c' w1',
    function_copy junk0 (fst demo_large) (snd demo_large) = Returned tt c w1 /\
    function_copy junk1 (fst demo_large) (snd demo_large) = Returned tt c' w1' /\
    occupant w1 (any_callable_ c) = occupant w1' (any_callable_ c').
Proof.
  destruct (built_from_callable large_lambda lvalue [10; 11; 12; 13]) as [Hh Hwf];
    [reflexivity | reflexivity |].
  splits; [exact Hh | reflexivity | exact Hwf |].
  destruct (indeterminate_storage_is_never_observed junk0 junk1 (fst demo_large)
              (snd demo_large) large_lambda [10; 11; 12; 13] Hh eq_refl Hwf)
    as ((c & w1 & c' & w1' & E & E' & _ & _ & Hv & _) & _).
  exists c, w1, c', w1'. splits; assumption.
Defined.

(** * Lifetimes: every occupant constructed is destroyed once *)

Lemma excess_app es es' : excess (es ++ es') = excess es + excess es'.
Proof. unfold excess. rewrite !count_app. lia. Qed.

Lemma excess_nil : excess [] = 0.
Proof. reflexivity. Qed.

Lemma excess_new p es : excess (EvNew p :: es) = excess es.
Proof. reflexivity. Qed.

Lemma excess_delete p es : excess (EvDelete p :: es) = excess es.
Proof. reflexivity. Qed.

Lemma excess_copy_ctor v es : excess (EvCopyCtor v :: es) = excess es + 1.
Proof. unfold excess, count. simpl. lia. Qed.

Lemma excess_move_ctor v es : excess (EvMoveCtor v :: es) = excess es + 1.
Proof. unfold excess, count. simpl. lia. Qed.

Lemma excess_dtor v es : excess (EvDtor v :: es) = excess es - 1.
Proof. unfold excess, count. simpl. lia. Qed.

Lemma excess_ctor_event cat v es : excess (ctor_event cat v :: es) = excess es + 1.
Proof. destruct cat; [apply excess_copy_ctor | apply excess_move_ctor]. Qed.

Ltac excess_simpl :=
  repeat first
    [ rewrite excess_app | rewrite excess_new | rewrite excess_delete
    | rewrite excess_copy_ctor | rewrite excess_move_ctor | rewrite excess_dtor
    | rewrite excess_ctor_event | rewrite excess_nil ].

Lemma store_excess T cat v a w :
  match manager_store T cat v a w with
  | Returned _ a' w' => excess (trace w') = excess (trace w) + 1
  | Threw _ a' w' => excess (trace w') = excess (trace w) /\ a' = a
  | Undefined => True
  end.
Proof.
  unfold manager_store, InPlace.store, Large.store.
  destruct (_In_place_callable T), (construct T cat v) as [code|[obj s]]; simpl;
    excess_simpl; try split; try reflexivity; lia.
Qed.

Lemma set_excess T cat v f w :
  match set T cat v f w with
  | Returned _ f' w' =>
      excess (trace w') = excess (trace w) + 1 /\ operator_bool f' = true
  | Threw _ f' w' =>
      excess (trace w') = excess (trace w) /\
      operator_bool f' = operator_bool f
  | Undefined => True
  end.
Proof.
  unfold set. pose proof (store_excess T cat v (any_callable_ f) w) as H.
  destruct (manager_store T cat v (any_callable_ f) w) as [[] a w'|e a w'|].
  - split; [assumption | reflexivity].
  - destruct H as (H & ->). split; [assumption | reflexivity].
  - exact I.
Qed.

Lemma move_excess T dst src w :
  match move (create_operations T) dst src w with
  | Returned _ _ w' => excess (trace w') = excess (trace w)
  | _ => True
  end.
Proof.
  unfold create_operations, move, templated_move, manager_move_and_destroy,
    InPlace.move_and_destroy, InPlace.store, InPlace.destroy.
  destruct (_In_place_callable T) eqn:HT; [|reflexivity].
  unfold construct. rewrite (in_place_nothrow T HT). simpl.
  excess_simpl. lia.
Qed.

Lemma function_move_excess junk x w dst x' w' :
  function_move junk x w = Returned tt (dst, x') w' ->
  excess (trace w') = excess (trace w) /\
  operator_bool dst = operator_bool x /\ operator_bool x' = false.
Proof.
  unfold function_move, operator_bool.
  destruct (operations (any_callable_ x)) as [T|] eqn:Ho.
  - pose proof (move_excess T (any_callable_ (function_default junk)) (any_callable_ x) w) as M.
    destruct (move_spec T (any_callable_ (function_default junk)) (any_callable_ x) w)
      as (d & s & w1 & E & Hd & Hs & _).
    rewrite E in *. intros [= <- <- <-]. simpl. rewrite Hd, Hs, Ho. auto.
  - intros [= <- <- <-]. simpl. rewrite Ho. auto.
Qed.

Lemma swap_excess junk a b w a' b' w' :
  swap junk a b w = Returned tt (a', b') w' ->
  excess (trace w') = excess (trace w) /\
  operator_bool a' = operator_bool b /\ operator_bool b' = operator_bool a.
Proof.
  intros E.
  destruct (swap_spec junk a b w)
    as (a1 & b1 & w1 & E1 & (Ao & _) & (Bo & _) & _).
  assert (a1 = a' /\ b1 = b' /\ w1 = w') as (<- & <- & <-).
  { rewrite E1 in E. injection E as -> -> ->. auto. }
  split; [|unfold operator_bool; rewrite Ao, Bo; auto].
  clear E1 Ao Bo. revert E. unfold swap.
  set (temp := {| storage := junk; operations := None |}).
  assert (S1 : exists t b2 w2,
    match operations (any_callable_ b) with
    | Some T =>
        match move (create_operations T) temp (any_callable_ b) w with
        | Returned _ (t, o) w => Some (t, set_any o b, w)
        | _ => None
        end
    | None => Some (temp, b, w)
    end = Some (t, b2, w2) /\ excess (trace w2) = excess (trace w)).
  { destruct (operations (any_callable_ b)) as [T|].
    - pose proof (move_excess T temp (any_callable_ b) w) as M.
      destruct (move_spec T temp (any_callable_ b) w) as (d & s & w2 & Em & _).
      rewrite Em in *. eauto.
    - eauto. }
  destruct S1 as (t & b2 & w2 & -> & X1).
  assert (S2 : exists a3 b3 w3,
    match operations (any_callable_ a) with
    | Some T =>
        match move (create_operations T) (any_callable_ b2) (any_callable_ a) w2 with
        | Returned _ (o, t) w => Some (set_any t a, set_any o b2, w)
        | _ => None
        end
    | None => Some (a, b2, w2)
    end = Some (a3, b3, w3) /\ excess (trace w3) = excess (trace w2)).
  { destruct (operations (any_callable_ a)) as [T|].
    - pose proof (move_excess T (any_callable_ b2) (any_callable_ a) w2) as M.
      destruct (move_spec T (any_callable_ b2) (any_callable_ a) w2)
        as (d & s & w3 & Em & _).
      rewrite Em in *. eauto.
    - eauto. }
  destruct S2 as (a3 & b3 & w3 & -> & X2).
  assert (S3 : exists a4 w4,
    match operations t with
    | Some T =>
        match move (create_operations T) (any_callable_ a3) t w3 with
        | Returned _ (t', _) w => Some (set_any t' a3, w)
        | _ => None
        end
    | None => Some (a3, w3)
    end = Some (a4, w4) /\ excess (trace w4) = excess (trace w3)).
  { destruct (operations t) as [T|].
    - pose proof (move_excess T (any_callable_ a3) t w3) as M.
      destruct (move_spec T (any_callable_ a3) t w3) as (d & s & w4 & Em & _).
      rewrite Em in *. eauto.
    - eauto. }
  destruct S3 as (a4 & w4 & -> & X3).
  intros [= _ _ <-]. congruence.
Qed.

Lemma function_copy_excess junk x w :
  match function_copy junk x w with
  | Returned _ c w' =>
      excess (trace w') = excess (trace w) + Z.b2z (operator_bool x) /\
      operator_bool c = operator_bool x
  | Threw _ c w' =>
      excess (trace w') = excess (trace w) /\ operator_bool c = false
  | Undefined => True
  end.
Proof.
  unfold function_copy, operator_bool.
  destruct (operations (any_callable_ x)) as [T|] eqn:Ho; [|simpl; split; [lia | reflexivity]].
  unfold create_operations, copy, templated_copy, InPlace.store, Large.store.
  destruct (_In_place_callable T).
  - destruct (construct T lvalue (InPlace.get_ref T (any_callable_ x))) as [code|[obj s]];
      simpl; excess_simpl; rewrite ?Ho; split; try reflexivity; lia.
  - destruct (Large.get_ref (any_callable_ x) w) as [[p u]|]; [|exact I].
    destruct (construct T lvalue u) as [code|[obj s]];
      simpl; excess_simpl; rewrite ?Ho; split; try reflexivity; lia.
Qed.

Lemma function_destroy_excess x w x' w' :
  valid w x -> function_destroy x w = Returned tt x' w' ->
  excess (trace w') = excess (trace w) - Z.b2z (operator_bool x) /\
  operator_bool x' = false.
Proof.
  intros Hv. unfold operator_bool.
  destruct (operations (any_callable_ x)) as [T|] eqn:Ho.
  - destruct (Hv T Ho) as (v & Hh).
    destruct (function_destroy_spec x w T v Hh) as (x1 & w1 & -> & Ho1 & _ & _ & Hm).
    intros [= <- <-]. rewrite Ho1. split; [|reflexivity].
    destruct (_In_place_callable T).
    + destruct Hm as (_ & ->). excess_simpl. cbn [Z.b2z]. lia.
    + destruct Hm as (p & _ & _ & _ & ->). excess_simpl. cbn [Z.b2z]. lia.
  - unfold function_destroy, operator_bool. rewrite Ho.
    intros [= <- <-]. rewrite Ho. cbn [Z.b2z]. split; [lia | reflexivity].
Qed.



(** The steps of a container assignment on a consistent set. *)
Lemma assign_copy_steps jp jt this y w rest :
  consistent w (this :: y :: rest) ->
  (exists c w1 t2 c2 w2 c3 w3,
      function_copy jp y w = Returned tt c w1 /\
      swap jt this c w1 = Returned tt (t2, c2) w2 /\
      valid w2 c2 /\
      function_destroy c2 w2 = Returned tt c3 w3 /\
      assign_copy jp jt this y w = Returned tt t2 w3) \/
  (exists code c w1,
      function_copy jp y w = Threw (thrown code) c w1 /\
      assign_copy jp jt this y w = Threw (thrown code) this w1).
Proof.
  intros Hc.
  assert (Hc0 : consistent w (y :: this :: rest))
    by (apply (consistent_perm w (this :: y :: rest)); [apply perm_swap | assumption]).
  destruct (function_copy_keeps jp y w (this :: rest) Hc0)
    as (c & w1 & Hc1 & _ & [(E & _)|(code & E & _)]).
  - left.
    assert (Hc1' : consistent w1 (this :: c :: y :: rest))
      by (apply (consistent_perm w1 (c :: y :: this :: rest));
          [apply perm_rotate3 | assumption]).
    destruct (swap_keeps jt this c w1 (y :: rest) Hc1')
      as (t2 & c2 & w2 & E2 & Hc2 & _).
    assert (Hc2' : consistent w2 (c2 :: t2 :: y :: rest))
      by (apply (consistent_perm w2 (t2 :: c2 :: y :: rest)); [apply perm_swap | assumption]).
    destruct (function_destroy_keeps c2 w2 (t2 :: y :: rest) Hc2')
      as (c3 & w3 & E3 & _).
    exists c, w1, t2, c2, w2, c3, w3. splits; try assumption.
    + eapply consistent_head_valid. eassumption.
    + unfold assign_copy, assign_body. rewrite E, E2, E3. reflexivity.
  - right. exists code, c, w1. split; [assumption|].
    unfold assign_copy. rewrite E. reflexivity.
Qed.

Lemma assign_move_steps jp jt this y w rest :
  consistent w (this :: y :: rest) ->
  exists oth y1 w1 t2 c2 w2 c3 w3,
    function_move jp y w = Returned tt (oth, y1) w1 /\
    swap jt this oth w1 = Returned tt (t2, c2) w2 /\
    valid w2 c2 /\
    function_destroy c2 w2 = Returned tt c3 w3 /\
    assign_move jp jt this y w = Returned tt (t2, y1) w3.
Proof.
  intros Hc.
  assert (Hc0 : consistent w (y :: this :: rest))
    by (apply (consistent_perm w (this :: y :: rest)); [apply perm_swap | assumption]).
  destruct (function_move_keeps jp y w (this :: rest) Hc0)
    as (oth & y1 & w1 & E & Hc1 & _).
  assert (Hc1' : consistent w1 (this :: oth :: y1 :: rest))
    by (apply (consistent_perm w1 (oth :: y1 :: this :: rest));
        [apply perm_rotate3 | assumption]).
  destruct (swap_keeps jt this oth w1 (y1 :: rest) Hc1')
    as (t2 & c2 & w2 & E2 & Hc2 & _).
  assert (Hc2' : consistent w2 (c2 :: t2 :: y1 :: rest))
    by (apply (consistent_perm w2 (t2 :: c2 :: y1 :: rest)); [apply perm_swap | assumption]).
  destruct (function_destroy_keeps c2 w2 (t2 :: y1 :: rest) Hc2')
    as (c3 & w3 & E3 & _).
  exists oth, y1, w1, t2, c2, w2, c3, w3. splits; try assumption.
  - eapply consistent_head_valid. eassumption.
  - unfold assign_move, assign_body. rewrite E, E2, E3. reflexivity.
Qed.

(** X17. The assignments keep the same balance.  On a consistent set,
    copy assignment [x = y] adds one construction if [y] is occupied and one
    destruction if [x] was, and adds nothing when the copy throws; move
    assignment only removes the former occupant of [x]; a raw-callable
    assignment that leaves by an exception has only removed the former
    occupant of [x], and it never returns. *)
Theorem assignment_lifetimes_balance x y w rest (Hc : consistent w (x :: y :: rest)) :
  (forall jp jt x' w',
      assign_copy jp jt x y w = Returned tt x' w' ->
      excess (trace w')
        = excess (trace w) + Z.b2z (operator_bool y) - Z.b2z (operator_bool x) /\
      operator_bool x' = operator_bool y) /\
  (forall jp jt e x' w',
      assign_copy jp jt x y w = Threw e x' w' ->
      excess (trace w') = excess (trace w) /\ x' = x) /\
  (forall jp jt x' y' w',
      assign_move jp jt x y w = Returned tt (x', y') w' ->
      excess (trace w') = excess (trace w) - Z.b2z (operator_bool x) /\
      operator_bool x' = operator_bool y /\ operator_bool y' = false) /\
  (forall T cat v e x' w',
      assign_callable T cat v x w = Threw e x' w' ->
      excess (trace w') = excess (trace w) - Z.b2z (operator_bool x) /\
      operator_bool x' = false) /\
  (forall T cat v x' w', assign_callable T cat v x w <> Returned tt x' w').
Proof.
  assert (Hvx : valid w x) by (eapply consistent_head_valid; eassumption).
  splits.
  - intros jp jt x' w' E.
    destruct (assign_copy_steps jp jt x y w rest Hc)
      as [(c & w1 & t2 & c2 & w2 & c3 & w3 & E1 & E2 & Hv2 & E3 & Ea)
         |(code & c & w1 & _ & Ea)]; rewrite Ea in E; [|discriminate].
    injection E as <- <-.
    pose proof (function_copy_excess jp y w) as H1. rewrite E1 in H1.
    destruct H1 as (X1 & B1).
    destruct (swap_excess jt x c w1 t2 c2 w2 E2) as (X2 & B2 & B2').
    destruct (function_destroy_excess c2 w2 c3 w3 Hv2 E3) as (X3 & _).
    split; [|congruence]. rewrite X3, X2, X1, B2'. lia.
  - intros jp jt e x' w' E.
    destruct (assign_copy_steps jp jt x y w rest Hc)
      as [(c & w1 & t2 & c2 & w2 & c3 & w3 & E1 & E2 & Hv2 & E3 & Ea)
         |(code & c & w1 & E1 & Ea)]; rewrite Ea in E; [discriminate|].
    injection E as _ <- <-.
    pose proof (function_copy_excess jp y w) as H1. rewrite E1 in H1.
    split; [apply H1 | reflexivity].
  - intros jp jt x' y' w' E.
    destruct (assign_move_steps jp jt x y w rest Hc)
      as (oth & y1 & w1 & t2 & c2 & w2 & c3 & w3 & E1 & E2 & Hv2 & E3 & Ea).
    rewrite Ea in E. injection E as <- <- <-.
    destruct (function_move_excess jp y w oth y1 w1 E1) as (X1 & B1 & B1').
    destruct (swap_excess jt x oth w1 t2 c2 w2 E2) as (X2 & B2 & B2').
    destruct (function_destroy_excess c2 w2 c3 w3 Hv2 E3) as (X3 & _).
    splits; congruence.
  - intros T cat v e x' w'. unfold assign_callable.
    pose proof (function_destroy_excess x w) as Hd.
    unfold function_destroy in Hd.
    destruct (operator_bool x) eqn:Hb.
    + destruct (unset x w) as [[] x1 w1|e1 x1 w1|] eqn:Eu; try discriminate.
      * destruct (Hd x1 w1 Hvx eq_refl) as (X1 & B1).
        pose proof (set_excess T cat v x1 w1) as Hs.
        destruct (set T cat v x1 w1) as [[] x2 w2|e2 x2 w2|]; try discriminate.
        intros [= _ <- <-]. destruct Hs as (X2 & B2). split; [|congruence].
        rewrite X2, X1. cbn [Z.b2z]. lia.
      * exfalso. unfold operator_bool in Hb.
        destruct (operations (any_callable_ x)) as [T0|] eqn:Ho; [|discriminate].
        destruct (Hvx T0 Ho) as (v0 & Hh).
        destruct (unset_keeps_invoker x w T0 v0 Hh) as (f' & w'' & Eu' & _).
        congruence.
    + pose proof (set_excess T cat v x w) as Hs.
      destruct (set T cat v x w) as [[] x2 w2|e2 x2 w2|]; try discriminate.
      intros [= _ <- <-]. destruct Hs as (X2 & B2). split; [|congruence].
      rewrite X2. cbn [Z.b2z]. lia.
  - intros T cat v x' w'. unfold assign_callable.
    destruct (if operator_bool x then unset x w else Returned tt x w)
      as [[] x1 w1|e1 x1 w1|]; try discriminate.
    destruct (set T cat v x1 w1); discriminate.
Qed.

Lemma assignment_lifetimes_balance_witness :
  consistent (snd demo_second) [fst demo_second; fst demo_large] /\
  exists x' y' w',
    assign_move junk0 junk1 (fst demo_second) (fst demo_large) (snd demo_second)
      = Returned tt (x', y') w' /\
    excess (trace w') = excess (trace (snd demo_second)) - 1.
Proof.
  split; [exact demo_second_consistent|].
  destruct (assignment_lifetimes_balance (fst demo_second) (fst demo_large)
              (snd demo_second) [] demo_second_consistent) as (_ & _ & Hm & _).
  eexists _, _, _. split; [reflexivity|].
  apply (Hm junk0 junk1 _ _ _ eq_refl).
Defined.

(** X18. When all containers of a consistent set are destroyed, the
    destructor of every occupant runs exactly once: the excess of
    constructions over destructions falls by the number of occupied
    containers, so it ends at zero when it counted the occupants before. *)
Theorem scope_exit_destroys_every_occupant fs w (Hc : consistent w fs) :
  exists w',
    destroy_all fs w = Some w' /\
    excess (trace w')
      = excess (trace w) - Z.of_nat (List.length (List.filter operator_bool fs)) /\
    (excess (trace w) = Z.of_nat (List.length (List.filter operator_bool fs)) ->
     excess (trace w') = 0).
Proof.
  assert (H : exists w',
            destroy_all fs w = Some w' /\
            excess (trace w')
              = excess (trace w) - Z.of_nat (List.length (List.filter operator_bool fs))).
  { revert w Hc. induction fs as [|f fs IH]; intros w Hc.
    - exists w. split; [reflexivity|]. simpl. lia.
    - destruct (function_destroy_keeps f w fs Hc) as (f' & w1 & E & Hc1 & _).
      destruct (function_destroy_excess f w f' w1
                  (consistent_head_valid _ _ _ Hc) E) as (X1 & _).
      destruct (IH w1 Hc1) as (w' & E' & X).
      exists w'. simpl. rewrite E. split; [assumption|].
      rewrite X, X1. destruct (operator_bool f); cbn [Z.b2z]; simpl List.length; lia. }
  destruct H as (w' & E & X). exists w'. splits; try assumption. lia.
Qed.

Lemma scope_exit_destroys_every_occupant_witness :
  consistent (snd demo_second) [fst demo_second; fst demo_large] /\
  exists w',
    destroy_all [fst demo_second; fst demo_large] (snd demo_second) = Some w' /\
    excess (trace w') = 0.
Proof.
  split; [exact demo_second_consistent|].
  destruct (scope_exit_destroys_every_occupant [fst demo_second; fst demo_large]
              (snd demo_second) demo_second_consistent) as (w' & E & _ & Hz).
  exists w'. split; [assumption|]. apply Hz. reflexivity.
Defined.
